(** * Parking search API route: token, metadata and availability caches,
      distance, filter / join / sort.

    Shallow embedding of [src/pages/api/parking/search.ts] and of the
    request schema of [src/lib/schemas.ts].

    Number model.  JavaScript has one number type, binary64.  The
    integral quantities of the feeds and of the clock (space counts,
    space-type codes, millisecond timestamps, token lifetimes) are [Z].
    Coordinates and distances are real numbers [R] in the model of the
    route, with exact arithmetic: that model has neither rounding nor
    NaN, and it is used for what does not depend on them (which
    requests are sent, what is cached, which lots are kept, what the
    items hold, the order by counts) and for formulas that the code
    follows up to rounding.  Where rounding decides the outcome the
    distance is computed in binary64 itself, by
    [Double.calculateDistance]: it is not a number for some pairs of
    coordinates that the schema accepts, and the symmetry of the
    distance and the order of the response by distance are settled
    there. *)

From Stdlib Require Import Reals Lra Lia ZArith List Permutation Sorted.
From Stdlib Require PrimFloat.
From stdpp Require Import gmap strings.

Local Open Scope Z_scope.

(** ** Distance calculator *)

Module Math.

(** [Math.atan2 y x] on real arguments: the angle of the point [(x, y)]
    in [(-PI, PI]]. *)
Definition atan2 (y x : R) : R :=
  if Rlt_dec 0 x then atan (y / x)
  else if Rlt_dec x 0 then
         (if Rle_dec 0 y then atan (y / x) + PI else atan (y / x) - PI)%R
  else if Rlt_dec 0 y then (PI / 2)%R
  else if Rlt_dec y 0 then (- PI / 2)%R
  else 0%R.

End Math.

(** [calculateDistance], line for line, over the real numbers.  There
    the term [a] lies in [[0, 1]] for latitudes of the schema's range
    and both square roots are defined; in binary64 it can round to a
    number above 1, see [Double.calculateDistance]. *)
Definition calculateDistance (lat1 lon1 lat2 lon2 : R) : R :=
  (let R_earth := 6371 in
   let dLat := (lat2 - lat1) * PI / 180 in
   let dLon := (lon2 - lon1) * PI / 180 in
   let a :=
     sin (dLat / 2) * sin (dLat / 2) +
     cos (lat1 * PI / 180) * cos (lat2 * PI / 180) *
     sin (dLon / 2) * sin (dLon / 2) in
   let c := 2 * Math.atan2 (sqrt a) (sqrt (1 - a)) in
   R_earth * c)%R.

(** The quantity [a] of [calculateDistance], named for the lemmas. *)
Definition haversine (lat1 lon1 lat2 lon2 : R) : R :=
  (sin ((lat2 - lat1) * PI / 180 / 2) * sin ((lat2 - lat1) * PI / 180 / 2) +
   cos (lat1 * PI / 180) * cos (lat2 * PI / 180) *
   sin ((lon2 - lon1) * PI / 180 / 2) * sin ((lon2 - lon1) * PI / 180 / 2))%R.

(** ** The distance in binary64 *)

Module Double.

Import PrimFloat.
Local Open Scope float_scope.

(** [Math.sin], [Math.cos] and [Math.atan2] are the runtime's: the
    language leaves their precision to the implementation.  The
    arithmetic operations and [Math.sqrt] are those of IEEE 754. *)
Record Math := {
  sin : float -> float;
  cos : float -> float;
  atan2 : float -> float -> float
}.

(** [Math.PI]. *)
Definition PI : float := 0x1.921fb54442d18p+1.

(** [calculateDistance], line for line, on binary64 numbers. *)
Definition calculateDistance (m : Math) (lat1 lon1 lat2 lon2 : float)
    : float :=
  let R_earth := 6371 in
  let dLat := (lat2 - lat1) * PI / 180 in
  let dLon := (lon2 - lon1) * PI / 180 in
  let a :=
    sin m (dLat / 2) * sin m (dLat / 2) +
    cos m (lat1 * PI / 180) * cos m (lat2 * PI / 180) *
    sin m (dLon / 2) * sin m (dLon / 2) in
  let c := 2 * atan2 m (sqrt a) (sqrt (1 - a)) in
  R_earth * c.

(** The quantity [a] of [calculateDistance], named for the theorems. *)
Definition haversine (m : Math) (lat1 lon1 lat2 lon2 : float) : float :=
  sin m ((lat2 - lat1) * PI / 180 / 2) * sin m ((lat2 - lat1) * PI / 180 / 2) +
  cos m (lat1 * PI / 180) * cos m (lat2 * PI / 180) *
  sin m ((lon2 - lon1) * PI / 180 / 2) * sin m ((lon2 - lon1) * PI / 180 / 2).

(** [v || d] for a number or [undefined]: 0, -0 and NaN are falsy. *)
Definition or_num (v : option float) (d : float) : float :=
  match v with
  | Some x => if is_nan x || is_zero x then d else x
  | None => d
  end.

(** The distance of an item, line 218, for a query that carries the
    coordinate [user]; [location] is the coordinate of the lot's entry
    in the metadata map, [None] when the map has no entry. *)
Definition distance (m : Math) (user : float * float)
    (location : option (float * float)) : float :=
  calculateDistance m (fst user) (snd user)
    (or_num (option_map fst location) 0)
    (or_num (option_map snd location) 0).

(** The comparator of [.sort] for a query with a coordinate, line 223,
    on the distances of the two items. *)
Definition compareLots (dA dB : float) : float := dA - dB.

(** [dA <= dB], as JavaScript compares: false when either is NaN. *)
Definition nearer_or_equal (dA dB : float) : Prop := (dA <=? dB) = true.

End Double.

(** ** JavaScript values *)

(** A value that is a string or [undefined]: query parameters, optional
    fields of the upstream JSON. *)
Definition truthy (v : option string) : bool :=
  match v with
  | Some s => negb (String.eqb s EmptyString)
  | None => false
  end.

(** [v || d] for such a value. *)
Definition or_str (v : option string) (d : string) : string :=
  match v with
  | Some s => if String.eqb s EmptyString then d else s
  | None => d
  end.

(** [v || d] for an integral number or [undefined]. *)
Definition or_num (v : option Z) (d : Z) : Z :=
  match v with
  | Some n => if n =? 0 then d else n
  | None => d
  end.

(** [v || d] for a real number or [undefined]. *)
Definition or_real (v : option R) (d : R) : R :=
  match v with
  | Some x => if Req_dec_T x 0 then d else x
  | None => d
  end.

(** ** Schema ([src/lib/schemas.ts]) *)

Inductive City :=
| Taipei | Taoyuan | Taichung | Tainan | Kaohsiung | Keelung
| ChanghuaCounty | YunlinCounty | PingtungCounty | YilanCounty
| HualienCounty | KinmenCounty.

Definition City_value (c : City) : string :=
  match c with
  | Taipei => "Taipei" | Taoyuan => "Taoyuan" | Taichung => "Taichung"
  | Tainan => "Tainan" | Kaohsiung => "Kaohsiung" | Keelung => "Keelung"
  | ChanghuaCounty => "ChanghuaCounty" | YunlinCounty => "YunlinCounty"
  | PingtungCounty => "PingtungCounty" | YilanCounty => "YilanCounty"
  | HualienCounty => "HualienCounty" | KinmenCounty => "KinmenCounty"
  end.

Definition City_all : list City :=
  [Taipei; Taoyuan; Taichung; Tainan; Kaohsiung; Keelung; ChanghuaCounty;
   YunlinCounty; PingtungCounty; YilanCounty; HualienCounty; KinmenCounty].

Inductive ParkingType := Car | Scooter | Heavy.

Definition ParkingType_value (p : ParkingType) : string :=
  match p with Car => "Car" | Scooter => "Scooter" | Heavy => "Heavy" end.

Definition ParkingType_all : list ParkingType := [Car; Scooter; Heavy].

Inductive ParkingAvailability := Available | Many | Few | Any.

Definition ParkingAvailability_value (a : ParkingAvailability) : string :=
  match a with
  | Available => "Available" | Many => "Many" | Few => "Few" | Any => "Any"
  end.

Definition ParkingAvailability_all : list ParkingAvailability :=
  [Available; Many; Few; Any].

Record Location := { latitude : R; longitude : R }.

Module Params.
(** The parsed query, [z.infer<typeof ParkingSearchSchema>]. *)
Record t := mk {
  city : City;
  parkingType : ParkingType;
  availability : ParkingAvailability;
  location : option Location
}.
End Params.

Module Input.
(** The object handed to [ParkingSearchSchema.parse]; a number that is
    [NaN] is [None]. *)
Record t := mk {
  city : option string;
  parkingType : option string;
  availability : option string;
  location : option (option R * option R)
}.
End Input.

Inductive Error :=
| TokenError            (* new Error('Failed to get access token from TDX') *)
| FetchError            (* fetch() or response.json() rejected *)
| TypeError             (* property read or iteration on undefined *)
| ZodError (issues : list string).   (* paths of the failing fields *)

Module z.

(** [z.nativeEnum(E)]: the member whose value is the string. *)
Definition nativeEnum {A} (all : list A) (value : A -> string)
    (path : string) (v : option string) : list string + A :=
  match v with
  | Some s =>
      match find (fun a => String.eqb (value a) s) all with
      | Some a => inr a
      | None => inl [path]
      end
  | None => inl [path]
  end.

(** [schema.default(d)]: [undefined] becomes [d]. *)
Definition default {V A} (schema : option V -> list string + A) (d : A)
    (v : option V) : list string + A :=
  match v with
  | None => inr d
  | Some _ => schema v
  end.

(** [schema.optional()]. *)
Definition optional {V A} (schema : V -> list string + A)
    (v : option V) : list string + option A :=
  match v with
  | None => inr None
  | Some x => match schema x with inl e => inl e | inr a => inr (Some a) end
  end.

(** [z.number().min(lo).max(hi)]: [NaN] is not a number. *)
Definition number (lo hi : R) (path : string) (v : option R)
    : list string + R :=
  match v with
  | None => inl [path]
  | Some x =>
      if Rle_dec lo x then
        if Rle_dec x hi then inr x else inl [path]
      else inl [path]
  end.

Definition issues {A} (r : list string + A) : list string :=
  match r with inl l => l | inr _ => [] end.

End z.

Definition LocationSchema (v : option R * option R) : list string + Location :=
  match z.number (-90) 90 "location.latitude" (fst v),
        z.number (-180) 180 "location.longitude" (snd v) with
  | inr la, inr lo => inr {| latitude := la; longitude := lo |}
  | rla, rlo => inl (z.issues rla ++ z.issues rlo)
  end.

(** [ParkingSearchSchema.parse]: every field is checked and the issues of
    all of them are thrown together. *)
Definition ParkingSearchSchema_parse (i : Input.t) : Error + Params.t :=
  match z.nativeEnum City_all City_value "city" (Input.city i),
        z.default (z.nativeEnum ParkingType_all ParkingType_value "parkingType")
                  Car (Input.parkingType i),
        z.default (z.nativeEnum ParkingAvailability_all
                                ParkingAvailability_value "availability")
                  Available (Input.availability i),
        z.optional LocationSchema (Input.location i) with
  | inr c, inr p, inr a, inr l => inr (Params.mk c p a l)
  | rc, rp, ra, rl =>
      inl (ZodError (z.issues rc ++ z.issues rp ++ z.issues ra ++ z.issues rl))
  end.

(** ** Data model of the route *)

(** Names as the upstream feeds carry them. *)
Record FeedName := { Zh_tw : string; En : string }.

(** Names as the route stores and returns them. *)
Record Name := { zh_tw : string; en : string }.

Record Availability := {
  SpaceType : Z;
  NumberOfSpaces : Z;
  AvailableSpaces : Z
}.

(** One lot of an availability snapshot (an element of [values]). *)
Record Lot := {
  CarParkID : string;
  CarParkName : FeedName;
  Availabilities : list Availability
}.

Module Meta.
(** A value of the [carParkData] map. *)
Record t := mk {
  carParkName : Name;
  telephone : string;
  location : Location;
  description : string;
  address : string;
  imageURL : option string      (* declared [imageURL?: string] *)
}.
End Meta.

Module Upstream.
Record Position := { PositionLat : R; PositionLon : R }.

(** One element of [CarParks] in the metadata feed.  A field that the
    JSON record lacks is [None]. *)
Record CarPark := {
  CarParkID : string;
  CarParkName : option FeedName;
  Telephone : option string;
  EmergencyPhone : option string;
  Description : option string;
  CarParkPosition : option Position;
  Address : option string;
  ImageURLs : option (list string)
}.

(** The JSON body of the credential endpoint. *)
Record Token := { access_token : option string; expires_in : Z }.
End Upstream.

Module Item.
(** One element of the response's [data]. *)
Record t := mk {
  carParkName : Name;
  totalSpaces : Z;
  availableSpaces : Z;
  location : Location;
  address : string;
  telephone : string;
  imageURL : string;
  description : string;
  distance : option R           (* [undefined] without a user coordinate *)
}.
End Item.

Module Cache.
(** A value of the [carParkCache] map: one city's snapshot. *)
Record t := mk { expiredAt : Z; values : list Lot }.
End Cache.

(** Requests sent to the upstream, in the order they are sent. *)
Inductive Event :=
| TokenExchange
| FetchCarParks (city : string)
| FetchAvailability (city : string).

(** The module-level variables of the route, the number of clock readings
    taken so far and the requests sent so far.  The key of [carParkCache]
    is the [city] query parameter as received, [None] when it is
    [undefined]. *)
Record State := {
  expiredAt : Z;
  accessToken : option string;
  loadedCities : gset string;
  carParkData : gmap string Meta.t;
  carParkCache : gmap (option string) Cache.t;
  ticks : nat;
  trace : list Event
}.

Definition initial : State :=
  {| expiredAt := 0; accessToken := None; loadedCities := ∅;
     carParkData := ∅; carParkCache := ∅; ticks := 0%nat; trace := [] |}.

(** What the route cannot decide: the clock, the upstream answers and the
    runtime's [parseFloat].  [Date_now n] is the value of the [n]-th
    reading of [Date.now()]; an endpoint's answer depends on how many
    requests were sent before it. *)
Record World := {
  Date_now : nat -> Z;
  token_endpoint : nat -> option Upstream.Token;
      (* [None]: fetch() or json() rejects *)
  carpark_endpoint : nat -> string -> option (option (list Upstream.CarPark));
      (* [None]: fetch() or json() rejects, or the body is null;
         [Some None]: the body has no [CarParks] *)
  availability_endpoint : nat -> string -> option (option (list Lot));
      (* [None]: fetch() or json() rejects, or the body is null;
         [Some None]: the body has no list of well-formed lots under
         [ParkingAvailabilities], so that the mapping of line 139 throws;
         [Some (Some lots)]: the lots, which that mapping copies field by
         field *)
  parseFloat : string -> option R
      (* [None]: NaN *)
}.

(** ** State and exception monad *)

Inductive Outcome (A : Type) :=
| Return (a : A)
| Throw (e : Error).
Arguments Return {A} a.
Arguments Throw {A} e.

Definition M (A : Type) : Type := State -> Outcome A * State.

Definition ret {A} (a : A) : M A := fun st => (Return a, st).

Definition throw {A} (e : Error) : M A := fun st => (Throw e, st).

Definition bind {A B} (m : M A) (k : A -> M B) : M B :=
  fun st =>
    match m st with
    | (Return a, st') => k a st'
    | (Throw e, st') => (Throw e, st')
    end.

Notation "'let*' x := m 'in' k" := (bind m (fun x => k))
  (at level 10, x name, m at level 100, k at level 200).
Notation "m >> k" := (bind m (fun _ => k))
  (at level 100, k at level 200, right associativity).

Definition get : M State := fun st => (Return st, st).

Definition modify (f : State -> State) : M unit := fun st => (Return tt, f st).

Fixpoint for_of {A} (l : list A) (body : A -> M unit) : M unit :=
  match l with
  | [] => ret tt
  | x :: l' => body x >> for_of l' body
  end.

(** Field updates. *)
Definition set_token (e : Z) (t : option string) (st : State) : State :=
  {| expiredAt := e; accessToken := t; loadedCities := loadedCities st;
     carParkData := carParkData st; carParkCache := carParkCache st;
     ticks := ticks st; trace := trace st |}.

Definition loadedCities_add (c : string) (st : State) : State :=
  {| expiredAt := expiredAt st; accessToken := accessToken st;
     loadedCities := {[ c ]} ∪ loadedCities st;
     carParkData := carParkData st; carParkCache := carParkCache st;
     ticks := ticks st; trace := trace st |}.

Definition carParkData_set (k : string) (v : Meta.t) (st : State) : State :=
  {| expiredAt := expiredAt st; accessToken := accessToken st;
     loadedCities := loadedCities st;
     carParkData := <[ k := v ]> (carParkData st);
     carParkCache := carParkCache st;
     ticks := ticks st; trace := trace st |}.

Definition carParkCache_set (k : option string) (v : Cache.t) (st : State)
    : State :=
  {| expiredAt := expiredAt st; accessToken := accessToken st;
     loadedCities := loadedCities st; carParkData := carParkData st;
     carParkCache := <[ k := v ]> (carParkCache st);
     ticks := ticks st; trace := trace st |}.

Definition tick (st : State) : State :=
  {| expiredAt := expiredAt st; accessToken := accessToken st;
     loadedCities := loadedCities st; carParkData := carParkData st;
     carParkCache := carParkCache st;
     ticks := S (ticks st); trace := trace st |}.

Definition send (e : Event) (st : State) : State :=
  {| expiredAt := expiredAt st; accessToken := accessToken st;
     loadedCities := loadedCities st; carParkData := carParkData st;
     carParkCache := carParkCache st;
     ticks := ticks st; trace := trace st ++ [e] |}.

(** [Date.now()]. *)
Definition now (w : World) : M Z :=
  fun st => (Return (Date_now w (ticks st)), tick st).

(** [await (await fetch(url)).json()] on an endpoint: the request is sent,
    then the answer arrives or the promise rejects. *)
Definition fetch_json {A} (e : Event) (answer : nat -> option A) : M A :=
  fun st =>
    match answer (length (trace st)) with
    | Some a => (Return a, send e st)
    | None => (Throw FetchError, send e st)
    end.

(** ** Token manager *)

Definition getAccessToken (w : World) : M string :=
  let* now := now w in
  let* st := get in
  if truthy (accessToken st) && (now <? expiredAt st) then
    ret (default EmptyString (accessToken st))
  else
    let* data := fetch_json TokenExchange (token_endpoint w) in
    if negb (truthy (Upstream.access_token data)) then throw TokenError
    else
      modify (set_token (now + Upstream.expires_in data * 1000 - 60000)
                        (Upstream.access_token data)) >>
      ret (default EmptyString (Upstream.access_token data)).

(** ** Metadata loader *)

(** The key of [carParkData], a template string. *)
Definition carParkKey (city : City) (id : string) : string :=
  City_value city +:+ "-" +:+ id.

(** The object literal of lines 82-95; reading a property of a missing
    [CarParkName] or [CarParkPosition] throws. *)
Definition carParkEntry (carPark : Upstream.CarPark) : option Meta.t :=
  match Upstream.CarParkName carPark, Upstream.CarParkPosition carPark with
  | Some name, Some pos =>
      Some {| Meta.carParkName := {| zh_tw := Zh_tw name; en := En name |};
              Meta.telephone :=
                or_str (Upstream.Telephone carPark)
                       (or_str (Upstream.EmergencyPhone carPark) EmptyString);
              Meta.description :=
                or_str (Upstream.Description carPark) EmptyString;
              Meta.location :=
                {| latitude := Upstream.PositionLat pos;
                   longitude := Upstream.PositionLon pos |};
              Meta.address := or_str (Upstream.Address carPark) EmptyString;
              Meta.imageURL :=
                head (default [] (Upstream.ImageURLs carPark)) |}
  | _, _ => None
  end.

(** The body of the loop of lines 81-96. *)
Definition storeCarPark (city : City) (carPark : Upstream.CarPark) : M unit :=
  match carParkEntry carPark with
  | Some entry =>
      modify (carParkData_set
                (carParkKey city (Upstream.CarParkID carPark)) entry)
  | None => throw TypeError
  end.

Definition loadMockCarParkData (w : World) (city : City) : M unit :=
  let* st := get in
  if decide (City_value city ∈ loadedCities st) then ret tt
  else
    let* token := getAccessToken w in
    let* data := fetch_json (FetchCarParks (City_value city))
                            (fun n => carpark_endpoint w n (City_value city)) in
    modify (loadedCities_add (City_value city)) >>
    match data with
    | None => throw TypeError                (* for ... of undefined *)
    | Some carParks => for_of carParks (storeCarPark city)
    end.

Definition getMockCarParkData (st : State) (city : City) (id : string)
    : option Meta.t :=
  carParkData st !! carParkKey city id.

(** ** Availability cache *)

(** The city as it is spliced into the URL. *)
Definition url_city (city : option string) : string :=
  default "undefined" city.

Definition getAvailableCarParks (w : World) (city : option string)
    : M (list Lot) :=
  let* st := get in
  let* hit :=
    match carParkCache st !! city with
    | Some cache =>
        let* now := now w in
        if Cache.expiredAt cache >? now then ret (Some (Cache.values cache))
        else ret None
    | None => ret None
    end in
  match hit with
  | Some lots => ret lots
  | None =>
      let* token := getAccessToken w in
      let* values := fetch_json (FetchAvailability (url_city city))
                       (fun n => availability_endpoint w n (url_city city)) in
      let* now := now w in
      match values with
      | None => throw TypeError
      | Some lots =>
          modify (carParkCache_set city
                    {| Cache.expiredAt := now + 60000;
                       Cache.values := lots |}) >>
          let* st := get in
          match carParkCache st !! city with
          | Some cache => ret (Cache.values cache)
          | None => throw TypeError
          end
      end
  end.

(** ** Search orchestrator *)

Module Query.
(** [req.query]: each parameter is a string or [undefined]. *)
Record t := mk {
  city : option string;
  parkingType : option string;
  availability : option string;
  latitude : option string;
  longitude : option string
}.
End Query.

Record Request := { method : string; query : Query.t }.

Inductive Response :=
| Status405                          (* {error: 'Method not allowed'} *)
| Status200 (data : list Item.t)     (* {success: true, data} *)
| Status400 (error : Error).         (* {success: false, error} *)

Definition spaceTypeMapping (p : ParkingType) : Z :=
  match p with Car => 1 | Scooter => 2 | Heavy => 5 end.

Definition availableSpaceTypes (a : ParkingAvailability) : Z :=
  match a with Any => 0 | Few => 3 | Many => 5 | Available => 1 end.

(** The argument of [ParkingSearchSchema.parse], lines 169-177. *)
Definition parse_argument (w : World) (q : Query.t) : Input.t :=
  {| Input.city := Query.city q;
     Input.parkingType := Query.parkingType q;
     Input.availability := Query.availability q;
     Input.location :=
       if truthy (Query.latitude q) && truthy (Query.longitude q) then
         Some (parseFloat w (default EmptyString (Query.latitude q)),
               parseFloat w (default EmptyString (Query.longitude q)))
       else None |}.

(** The callback of [.filter], lines 195-201. *)
Definition keeps (params : Params.t) (lot : Lot) : bool :=
  existsb (fun avail =>
             let spaceType := spaceTypeMapping (Params.parkingType params) in
             let availability :=
               availableSpaceTypes (Params.availability params) in
             (SpaceType avail =? spaceType) &&
             (AvailableSpaces avail >=? availability))
          (Availabilities lot).

(** The callback of [.map], lines 202-220. *)
Definition toItem (st : State) (params : Params.t) (lot : Lot) : Item.t :=
  let carPark := getMockCarParkData st (Params.city params) (CarParkID lot) in
  let available :=
    find (fun avail =>
            SpaceType avail =? spaceTypeMapping (Params.parkingType params))
         (Availabilities lot) in
  {| Item.carParkName :=
       {| zh_tw := Zh_tw (CarParkName lot); en := En (CarParkName lot) |};
     Item.totalSpaces := or_num (option_map NumberOfSpaces available) 0;
     Item.availableSpaces := or_num (option_map AvailableSpaces available) 0;
     Item.location :=
       match carPark with
       | Some c => Meta.location c
       | None => {| latitude := 0; longitude := 0 |}
       end;
     Item.address := or_str (option_map Meta.address carPark) EmptyString;
     Item.telephone := or_str (option_map Meta.telephone carPark) EmptyString;
     Item.imageURL :=
       or_str (match carPark with Some c => Meta.imageURL c | None => None end)
              EmptyString;
     Item.description :=
       or_str (option_map Meta.description carPark) EmptyString;
     Item.distance :=
       match Params.location params with
       | Some user =>
           Some (calculateDistance
                   (latitude user) (longitude user)
                   (or_real (option_map (fun c => latitude (Meta.location c))
                                        carPark) 0)
                   (or_real (option_map (fun c => longitude (Meta.location c))
                                        carPark) 0))
       | None => None
       end |}.

(** The value a comparator returns: a difference of counts or a
    difference of distances. *)
Inductive Number :=
| Int (n : Z)
| Real (x : R).

Definition positive (v : Number) : bool :=
  match v with
  | Int n => 0 <? n
  | Real x => if Rlt_dec 0 x then true else false
  end.

(** The comparator of [.sort], lines 221-227.  The difference of two
    distances is a real number here and orders the items; in binary64
    it is NaN when either distance is, see [Double.compareLots]. *)
Definition compareLots (params : Params.t) (lotA lotB : Item.t) : Number :=
  match Params.location params, Item.distance lotA, Item.distance lotB with
  | Some _, Some dA, Some dB => Real (dA - dB)
  | _, _, _ => Int (Item.availableSpaces lotB - Item.availableSpaces lotA)
  end.

Module Array.

(** [Array.prototype.sort(comparefn)].  The language requires a stable
    sort; for a comparator that is a consistent ordering its result is
    therefore determined, and it is the one this insertion sort
    computes: an element moves behind the elements that were before it
    only past those the comparator puts strictly first. *)
Fixpoint insert {A} (comparefn : A -> A -> Number) (x : A) (l : list A)
    : list A :=
  match l with
  | [] => [x]
  | y :: l' =>
      if positive (comparefn x y) then y :: insert comparefn x l'
      else x :: l
  end.

Definition sort {A} (comparefn : A -> A -> Number) (l : list A) : list A :=
  fold_right (insert comparefn) [] l.

End Array.

(** The lodash chain of lines 194-228. *)
Definition search (st : State) (params : Params.t) (data : list Lot)
    : list Item.t :=
  Array.sort (compareLots params)
             (map (toItem st params) (List.filter (keeps params) data)).

Definition of_result {A} (r : Error + A) : M A :=
  match r with
  | inr a => ret a
  | inl e => throw e
  end.

Definition handler (w : World) (req : Request) (st : State)
    : Response * State :=
  if negb (String.eqb (method req) "GET") then (Status405, st)
  else
    match
      (let* data := getAvailableCarParks w (Query.city (query req)) in
       let* params :=
         of_result (ParkingSearchSchema_parse
                      (parse_argument w (query req))) in
       loadMockCarParkData w (Params.city params) >>
       let* st := get in
       ret (search st params data)) st
    with
    | (Return result, st') => (Status200 result, st')
    | (Throw error, st') => (Status400 error, st')
    end.

(** The request with both coordinate parameters left out. *)
Definition without_coordinate (req : Request) : Request :=
  {| method := method req;
     query := {| Query.city := Query.city (query req);
                 Query.parkingType := Query.parkingType (query req);
                 Query.availability := Query.availability (query req);
                 Query.latitude := None;
                 Query.longitude := None |} |}.

(** ** Order of the result by counts *)

Definition no_fewer_spaces (a b : Item.t) : Prop :=
  Item.availableSpaces b <= Item.availableSpaces a.

(** ** A concrete upstream *)

Module Example.

Definition spaces (type total free : Z) : Availability :=
  {| SpaceType := type; NumberOfSpaces := total; AvailableSpaces := free |}.

Definition lot (id : string) (avail : list Availability) : Lot :=
  {| CarParkID := id;
     CarParkName := {| Zh_tw := id; En := id |};
     Availabilities := avail |}.

Definition lotA : Lot := lot "A" [spaces 1 10 6].
Definition lotB : Lot := lot "B" [spaces 1 10 2].
Definition lotC : Lot := lot "C" [spaces 2 30 4; spaces 1 20 9].
Definition lotD : Lot := lot "D" [spaces 2 50 40].
Definition lots : list Lot := [lotA; lotB; lotC; lotD].

(** A record with every optional field. *)
Definition carParkA : Upstream.CarPark :=
  {| Upstream.CarParkID := "A";
     Upstream.CarParkName := Some {| Zh_tw := "A"; En := "A" |};
     Upstream.Telephone := Some "02-27208889";
     Upstream.EmergencyPhone := None;
     Upstream.Description := Some "open all day";
     Upstream.CarParkPosition :=
       Some {| Upstream.PositionLat := 25; Upstream.PositionLon := 121 |};
     Upstream.Address := Some "No. 1, City Hall Rd.";
     Upstream.ImageURLs := Some ["https://example.org/a.jpg"] |}.

(** A record without telephone, description and images. *)
Definition carParkB : Upstream.CarPark :=
  {| Upstream.CarParkID := "B";
     Upstream.CarParkName := Some {| Zh_tw := "B"; En := "B" |};
     Upstream.Telephone := None;
     Upstream.EmergencyPhone := Some "119";
     Upstream.Description := None;
     Upstream.CarParkPosition :=
       Some {| Upstream.PositionLat := 24; Upstream.PositionLon := 120 |};
     Upstream.Address := Some "No. 2, Station Rd.";
     Upstream.ImageURLs := None |}.

Definition token : Upstream.Token :=
  {| Upstream.access_token := Some "token"; Upstream.expires_in := 3600 |}.

(** The clock advances one second per reading; the upstream knows
    Taipei only, and answers a body without lots for any other city. *)
Definition world : World :=
  {| Date_now := fun n => 1000 * Z.of_nat n;
     token_endpoint := fun _ => Some token;
     carpark_endpoint := fun _ city =>
       if String.eqb city "Taipei" then Some (Some [carParkA; carParkB])
       else Some None;
     availability_endpoint := fun _ city =>
       if String.eqb city "Taipei" then Some (Some lots) else Some None;
     parseFloat := fun s =>
       if String.eqb s "25" then Some 25%R
       else if String.eqb s "121" then Some 121%R
       else None |}.

(** The same upstream when the metadata feed answers with an error
    body, one without [CarParks]. *)
Definition world_without_CarParks : World :=
  {| Date_now := Date_now world;
     token_endpoint := token_endpoint world;
     carpark_endpoint := fun _ _ => Some None;
     availability_endpoint := availability_endpoint world;
     parseFloat := parseFloat world |}.

(** A record the loop cannot read: it has no [CarParkName]. *)
Definition carParkMalformed : Upstream.CarPark :=
  {| Upstream.CarParkID := "M";
     Upstream.CarParkName := None;
     Upstream.Telephone := None;
     Upstream.EmergencyPhone := None;
     Upstream.Description := None;
     Upstream.CarParkPosition := None;
     Upstream.Address := None;
     Upstream.ImageURLs := None |}.

(** The same upstream when the second record of the metadata feed is
    malformed. *)
Definition world_malformed_CarPark : World :=
  {| Date_now := Date_now world;
     token_endpoint := token_endpoint world;
     carpark_endpoint := fun _ _ => Some (Some [carParkA; carParkMalformed]);
     availability_endpoint := availability_endpoint world;
     parseFloat := parseFloat world |}.

Definition get (city parkingType availability latitude longitude
                : option string) : Request :=
  {| method := "GET";
     query := Query.mk city parkingType availability latitude longitude |}.

(** Cars, tier Many, no coordinate. *)
Definition search_many : Request :=
  get (Some "Taipei") (Some "Car") (Some "Many") None None.

Definition many_params : Params.t := Params.mk Taipei Car Many None.

(** Defaults, from the coordinate (25, 121). *)
Definition search_near : Request :=
  get (Some "Taipei") None None (Some "25") (Some "121").

Definition near_params : Params.t :=
  Params.mk Taipei Car Available
            (Some {| latitude := 25; longitude := 121 |}).

(** Defaults, with a latitude and no longitude. *)
Definition search_half : Request :=
  get (Some "Taipei") None None (Some "25") None.

(** The state a first search for Taipei leaves. *)
Definition warm : State :=
  (loadMockCarParkData world Taipei
     (getAvailableCarParks world (Some "Taipei") initial).2).2.

(** The same state [n] clock readings later. *)
Definition later (n : nat) (st : State) : State :=
  {| expiredAt := expiredAt st; accessToken := accessToken st;
     loadedCities := loadedCities st; carParkData := carParkData st;
     carParkCache := carParkCache st;
     ticks := (ticks st + n)%nat; trace := trace st |}.

End Example.

(** ** Footprint of a run *)

(** [st'] is [st] after at most [n] further requests, all among
    [allowed], and with nothing dropped from the caches. *)
Definition only_adds (n : nat) (allowed : list Event) (st st' : State)
    : Prop :=
  (exists new, trace st' = trace st ++ new /\ incl new allowed /\
               (length new <= n)%nat) /\
  loadedCities st ⊆ loadedCities st' /\
  (forall k, is_Some (carParkData st !! k) ->
             is_Some (carParkData st' !! k)) /\
  (forall k, is_Some (carParkCache st !! k) ->
             is_Some (carParkCache st' !! k)) /\
  (accessToken st <> None -> accessToken st' <> None) /\
  (ticks st <= ticks st')%nat.

(** ** The search page ([src/pages/search.tsx]) *)

Module Page.

(** The table of [src/pages/search.tsx], lines 33-46. *)
Definition cityCoordinates : list (City * Location) :=
  [(Taipei, {| latitude := 25.0330; longitude := 121.5654 |});
   (Taoyuan, {| latitude := 24.9937; longitude := 121.3036 |});
   (Taichung, {| latitude := 24.1477; longitude := 120.6736 |});
   (Tainan, {| latitude := 22.9960; longitude := 120.2152 |});
   (Kaohsiung, {| latitude := 22.6273; longitude := 120.3014 |});
   (Keelung, {| latitude := 25.1291; longitude := 121.7468 |});
   (ChanghuaCounty, {| latitude := 24.5644; longitude := 120.8206 |});
   (YunlinCounty, {| latitude := 23.9155; longitude := 120.6871 |});
   (PingtungCounty, {| latitude := 22.6726; longitude := 120.4878 |});
   (YilanCounty, {| latitude := 24.7560; longitude := 121.7549 |});
   (HualienCounty, {| latitude := 23.9764; longitude := 121.6099 |});
   (KinmenCounty, {| latitude := 23.5685; longitude := 119.5768 |})].

(** [Math.sqrt(Math.pow(a.latitude - latitude, 2)
              + Math.pow(a.longitude - longitude, 2))]. *)
Definition dist (lat lon : R) (a : Location) : R :=
  sqrt ((latitude a - lat) ^ 2 + (longitude a - lon) ^ 2).

(** The comparator of [toSorted], lines 64-68. *)
Definition byDistance (lat lon : R) (x y : City * Location) : Number :=
  let distA := dist lat lon (snd x) in
  let distB := dist lat lon (snd y) in
  Real (distA - distB).

(** [cityCoordinates.toSorted(...)[0][0]]; reading [[0]] of an empty
    array's first element would throw. *)
Definition nearestCity (lat lon : R) : option City :=
  match Array.sort (byDistance lat lon) cityCoordinates with
  | (city, _) :: _ => Some city
  | [] => None
  end.

(** The update of the form by the geolocation callback, lines 62-75. *)
Definition onPosition (lat lon : R) (prev : Input.t) : option Input.t :=
  match nearestCity lat lon with
  | Some city =>
      Some {| Input.city := Some (City_value city);
              Input.parkingType := Input.parkingType prev;
              Input.availability := Input.availability prev;
              Input.location := Some (Some lat, Some lon) |}
  | None => None
  end.

(** The request [handleSearch] sends for the form, lines 113-129, or the
    error its own validation throws.  [toString] is the runtime's
    [Number.prototype.toString]; the encoding of the parameters into the
    URL and its decoding into [req.query] are taken to be inverse. *)
Definition handleSearch (toString : R -> string) (searchForm : Input.t)
    : Error + Request :=
  match ParkingSearchSchema_parse searchForm with
  | inl e => inl e
  | inr validatedData =>
      let lat := option_map (fun l => toString (latitude l))
                            (Params.location validatedData) in
      let lon := option_map (fun l => toString (longitude l))
                            (Params.location validatedData) in
      let missing := negb (truthy lat) || negb (truthy lon) in
      inr {| method := "GET";
             query :=
               {| Query.city := Some (City_value (Params.city validatedData));
                  Query.parkingType :=
                    Some (ParkingType_value (Params.parkingType validatedData));
                  Query.availability :=
                    Some (ParkingAvailability_value
                            (Params.availability validatedData));
                  Query.latitude := if missing then None else lat;
                  Query.longitude := if missing then None else lon |} |}
  end.

End Page.

(** ** The result cards of the search page *)

Module Render.

(** [lot.carParkName[key]] on an item as the handler serialises it: the
    object has the two properties [zh_tw] and [en]. *)
Definition carParkName_get (name : Name) (key : string) : option string :=
  if String.eqb key "zh_tw" then Some (zh_tw name)
  else if String.eqb key "en" then Some (en name)
  else None.

(** The heading of a result card, line 287 of [src/pages/search.tsx]:
    [lot.carParkName[language] || lot.carParkName["zh-TW"]] with
    [language = useRouter().locale || "zh-TW"]; [None] is a value that
    renders nothing. *)
Definition heading (locale : option string) (lot : Item.t) : option string :=
  let language := or_str locale "zh-TW" in
  let name := carParkName_get (Item.carParkName lot) language in
  if truthy name then name
  else
    let fallback := carParkName_get (Item.carParkName lot) "zh-TW" in
    if truthy fallback then fallback else None.

End Render.

(** ** Further states and requests of the example *)

Module Scenario.

(** The state of the example once the availability feed of Taipei has
    been fetched, before its metadata is loaded. *)
Definition fetched : State :=
  (getAvailableCarParks Example.world (Some "Taipei") initial).2.

(** Cars, tier Few, no coordinate. *)
Definition few_params : Params.t := Params.mk Taipei Car Few None.

(** A [Number.prototype.toString] for the two numbers of the example. *)
Definition toString (x : R) : string :=
  if Req_dec_T x 25 then "25" else "121".

(** The form of the page after the position (25, 121) was received. *)
Definition form_near : Input.t :=
  {| Input.city := Some "Taipei";
     Input.parkingType := Some "Car";
     Input.availability := Some "Available";
     Input.location := Some (Some 25%R, Some 121%R) |}.

(** The request the page sends for it. *)
Definition request_near : Request :=
  Example.get (Some "Taipei") (Some "Car") (Some "Available")
              (Some "25") (Some "121").

(** A lot with two entries of the space type a query asks for: the
    first one space short of the query's threshold, the second at it. *)
Definition two_entries (params : Params.t) : Lot :=
  Example.lot "P"
    [Example.spaces (spaceTypeMapping (Params.parkingType params)) 10
                    (availableSpaceTypes (Params.availability params) - 1);
     Example.spaces (spaceTypeMapping (Params.parkingType params)) 10
                    (availableSpaceTypes (Params.availability params))].

End Scenario.

(** ** A query from the antipode of a lot *)

Module Antipode.

Import PrimFloat.
Local Open Scope float_scope.

(** The coordinate of the query [latitude=-8&longitude=-179], within the
    bounds of the schema. *)
Definition user : float * float := (-8, -179).

(** The coordinates of the metadata of three lots of a snapshot: F has
    no entry in the metadata map, N lies at (8, 1), the antipode of the
    user, and G at the user's own coordinate. *)
Definition locations : list (option (float * float)) :=
  [None; Some (8, 1); Some (-8, -179)].

(** Sines, cosines and arc tangents at the arguments that the distances
    from and to [user] need: the values rounded to the nearest binary64
    number, which are the ones the fdlibm routines of V8 return. *)
Definition sines : list (float * float) :=
  [(0, 0);
   (0x1.1df46a2529d39p-4, 0x1.1db8f6d6a5128p-4);
   (0x1.1df46a2529d39p-3, 0x1.1d06c968d9e19p-3);
   (-0x1.1df46a2529d39p-3, -0x1.1d06c968d9e19p-3);
   (0x1.8fe3cc6ff87dep+0, 0x1.fffb02599c9cdp-1);
   (0x1.921fb54442d18p+0, 1);
   (-0x1.921fb54442d18p+0, -1)].

Definition cosines : list (float * float) :=
  [(0, 1);
   (0x1.1df46a2529d39p-3, 0x1.fb046a930947ap-1);
   (-0x1.1df46a2529d39p-3, 0x1.fb046a930947ap-1)].

Definition arctangents : list (float * float * float) :=
  [(0, 1, 0);
   (0x1.febbc2c8e3bd2p-1, 0x1.1fed93201ad81p-4, 0x1.801d0ea23d3cep+0)].

(** A runtime that returns these values, and NaN for the arc tangent of
    a point with the abscissa NaN, as the language requires. *)
Definition tabulated (m : Double.Math) : Prop :=
  Forall (fun p => Double.sin m (fst p) = snd p) sines /\
  Forall (fun p => Double.cos m (fst p) = snd p) cosines /\
  Forall (fun p => Double.atan2 m (fst (fst p)) (snd (fst p)) = snd p)
         arctangents /\
  forall y, Double.atan2 m y nan = nan.

Fixpoint lookup (x : float) (table : list (float * float)) : float :=
  match table with
  | [] => nan
  | (k, v) :: table => if Leibniz.eqb x k then v else lookup x table
  end.

(** The runtime that knows the tables and nothing else. *)
Definition runtime : Double.Math :=
  {| Double.sin x := lookup x sines;
     Double.cos x := lookup x cosines;
     Double.atan2 y x :=
       if is_nan y || is_nan x then nan
       else lookup x (map (fun p => (snd (fst p), snd p))
                          (List.filter (fun p => Leibniz.eqb y (fst (fst p)))
                                       arctangents)) |}.

End Antipode.

(** * Properties *)

(** ** Distance calculator *)

Section Distance.

Local Open Scope R_scope.

Lemma calculateDistance_haversine lat1 lon1 lat2 lon2 :
  calculateDistance lat1 lon1 lat2 lon2 =
  6371 * (2 * Math.atan2 (sqrt (haversine lat1 lon1 lat2 lon2))
                         (sqrt (1 - haversine lat1 lon1 lat2 lon2))).
Proof. reflexivity. Qed.

(** A latitude of the schema's range has a non-negative cosine. *)
Lemma cos_latitude_nonneg lat :
  -90 <= lat <= 90 -> 0 <= cos (lat * PI / 180).
Proof.
  intros [Hlo Hhi]. pose proof PI_RGT_0 as Hpi.
  apply cos_ge_0; nra.
Qed.

(** On latitudes of the schema's range both square roots of
    [calculateDistance] are taken of numbers of [[0, 1]]. *)
Lemma haversine_range lat1 lon1 lat2 lon2 :
  -90 <= lat1 <= 90 -> -90 <= lat2 <= 90 ->
  0 <= haversine lat1 lon1 lat2 lon2 <= 1.
Proof.
  intros H1 H2.
  pose proof (cos_latitude_nonneg _ H1) as Hc1.
  pose proof (cos_latitude_nonneg _ H2) as Hc2.
  unfold haversine.
  set (p1 := lat1 * PI / 180) in *. set (p2 := lat2 * PI / 180) in *.
  set (h := (lat2 - lat1) * PI / 180 / 2).
  set (k := (lon2 - lon1) * PI / 180 / 2).
  assert (Hh : 2 * h = p2 - p1) by (unfold h, p1, p2, Rdiv; field).
  pose proof (cos_2a_sin h) as Hd. rewrite Hh, cos_minus in Hd.
  pose proof (cos_plus p2 p1) as Hp.
  pose proof (COS_bound (p2 + p1)) as [_ Hb].
  pose proof (sin2_cos2 k) as Hk. unfold Rsqr in Hk.
  assert (0 <= sin k * sin k) by nra.
  assert (0 <= cos k * cos k) by nra.
  assert (0 <= sin h * sin h) by nra.
  assert (0 <= cos p1 * cos p2) by nra.
  split; [nra |].
  assert (cos p1 * cos p2 * sin k * sin k <= cos p1 * cos p2) by nra.
  nra.
Qed.

End Distance.

(** ** The distance in binary64 *)

(** In a sorted list of two or more elements every element is related
    to another one, on one side or the other. *)
Lemma Sorted_neighbour {A} (R : A -> A -> Prop) (l : list A) (x : A) :
  Sorted R l -> In x l -> (2 <= length l)%nat ->
  exists y, In y l /\ (R x y \/ R y x).
Proof.
  induction 1 as [| a l Hs IH Hd]; intros Hin Hlen; [destruct Hin |].
  destruct l as [| b l]; [simpl in Hlen; lia |].
  apply HdRel_inv in Hd.
  destruct Hin as [<- | Hin].
  - exists b. simpl. auto.
  - destruct l as [| c l].
    + destruct Hin as [<- | []]. exists a. simpl. auto.
    + destruct IH as (y & Hy & Hr); [assumption | simpl; lia |].
      exists y. split; [now right | assumption].
Qed.

Section Binary64.

Import PrimFloat.
Local Open Scope float_scope.

(** Evaluation in binary64, reading the runtime's functions off the
    equations of the context. *)
Ltac read_tables :=
  repeat match goal with
         | H : Double.sin _ _ = _ |- _ => progress rewrite H
         | H : Double.cos _ _ = _ |- _ => progress rewrite H
         | H : Double.atan2 _ _ _ = _ |- _ => progress rewrite H
         | H : forall y, Double.atan2 _ y nan = nan |- _ => progress rewrite H
         end.

Ltac binary64 :=
  repeat (cbv - [Double.sin Double.cos Double.atan2]; progress read_tables);
  cbv - [Double.sin Double.cos Double.atan2].

Ltac tables H :=
  destruct H as (Hsin & Hcos & Hatan2 & Hnan);
  repeat match goal with
         | H : Forall _ (_ :: _) |- _ =>
             apply Forall_cons_iff in H; destruct H as [? H]
         | H : Forall _ [] |- _ => clear H
         end;
  cbn [fst snd] in *.

Lemma tabulated_runtime : Antipode.tabulated Antipode.runtime.
Proof.
  split; [repeat constructor |]. split; [repeat constructor |].
  split; [repeat constructor |].
  intros y. unfold Antipode.runtime, Double.atan2.
  destruct (is_nan y); reflexivity.
Defined.

Lemma calculateDistance_haversine_binary64 (m : Double.Math)
    (lat1 lon1 lat2 lon2 : float) :
  Double.calculateDistance m lat1 lon1 lat2 lon2
  = 6371 * (2 * Double.atan2 m
                  (sqrt (Double.haversine m lat1 lon1 lat2 lon2))
                  (sqrt (1 - Double.haversine m lat1 lon1 lat2 lon2))).
Proof. reflexivity. Qed.

(** From the user to the antipode and back: the term [a] is
    [0x1.0000000000001p+0], the least binary64 number above 1. *)
Lemma antipode_haversine (m : Double.Math) :
  Antipode.tabulated m ->
  Double.haversine m (-8) (-179) 8 1 = 0x1.0000000000001p+0 /\
  Double.haversine m 8 1 (-8) (-179) = 0x1.0000000000001p+0.
Proof.
  intros H. unfold Antipode.tabulated, Antipode.sines, Antipode.cosines,
    Antipode.arctangents in H. tables H.
  split; binary64; reflexivity.
Qed.

Lemma antipode_NaN (m : Double.Math) :
  Antipode.tabulated m ->
  Double.calculateDistance m (-8) (-179) 8 1 = nan /\
  Double.calculateDistance m 8 1 (-8) (-179) = nan.
Proof.
  intros H. rewrite !calculateDistance_haversine_binary64.
  destruct (antipode_haversine m H) as [-> ->].
  destruct H as (_ & _ & _ & Hnan).
  change (sqrt (1 - 0x1.0000000000001p+0)) with nan.
  rewrite Hnan. split; reflexivity.
Qed.

Lemma antipode_distances (m : Double.Math) :
  Antipode.tabulated m ->
  map (Double.distance m Antipode.user) Antipode.locations
  = [0x1.2aba99197cd01p+14; nan; 0].
Proof.
  intros H. unfold Antipode.tabulated, Antipode.sines, Antipode.cosines,
    Antipode.arctangents in H. tables H.
  binary64. reflexivity.
Qed.

(** C9. In binary64 the distance between the coordinate (-8, -179) and
    its antipode (8, 1), both within the bounds of the schema, is NaN in
    either order, on every runtime whose sines and cosines at the
    arguments involved are the tabulated, correctly rounded ones: the
    term [a] rounds to the least number above 1 and the square root of
    [1 - a] is not a number.  The two results are not equal as
    JavaScript compares numbers ([==] is false of NaN), so the distance
    is not symmetric there. *)
Theorem calculateDistance_antipode (m : Double.Math) :
  Antipode.tabulated m ->
  Double.haversine m (-8) (-179) 8 1 = 0x1.0000000000001p+0 /\
  Double.haversine m 8 1 (-8) (-179) = 0x1.0000000000001p+0 /\
  (1 <? 0x1.0000000000001p+0) = true /\
  sqrt (1 - 0x1.0000000000001p+0) = nan /\
  Double.calculateDistance m (-8) (-179) 8 1 = nan /\
  Double.calculateDistance m 8 1 (-8) (-179) = nan /\
  (Double.calculateDistance m (-8) (-179) 8 1
   =? Double.calculateDistance m 8 1 (-8) (-179)) = false.
Proof.
  intros H. destruct (antipode_NaN m H) as [-> ->].
  destruct (antipode_haversine m H) as [-> ->].
  repeat split; reflexivity.
Qed.

(** C3. A query from (-8, -179) over a snapshot of three lots, F
    without metadata, N at the antipode (8, 1) and G at the user's own
    coordinate: in binary64 the distances of the three items are
    19118.6 km, NaN and 0.  The comparator of the sort answers NaN
    whenever N is one of its two items, and no arrangement of the three
    items is in non-decreasing order of distance, since NaN is neither
    below nor above a number; so the response, whichever order the sort
    leaves, is not ordered by distance. *)
Theorem search_distances_not_ordered (m : Double.Math) :
  Antipode.tabulated m ->
  map (Double.distance m Antipode.user) Antipode.locations
  = [0x1.2aba99197cd01p+14; nan; 0] /\
  Forall (fun d => Double.compareLots d nan = nan /\
                   Double.compareLots nan d = nan)
         (map (Double.distance m Antipode.user) Antipode.locations) /\
  forall l,
    Permutation l (map (Double.distance m Antipode.user) Antipode.locations) ->
    ~ Sorted Double.nearer_or_equal l.
Proof.
  intros H. rewrite (antipode_distances m H).
  split; [reflexivity |]. split; [repeat constructor |].
  intros l Hperm Hsorted.
  destruct (Sorted_neighbour _ l nan Hsorted) as (y & Hy & Hr).
  - apply (Permutation_in _ (Permutation_sym Hperm)). simpl. auto.
  - rewrite (Permutation_length Hperm). simpl. lia.
  - apply (Permutation_in _ Hperm) in Hy.
    unfold Double.nearer_or_equal in Hr.
    destruct Hy as [<- | [<- | [<- | []]]]; destruct Hr as [Hr | Hr];
      vm_compute in Hr; discriminate.
Qed.

(** The two theorems on the runtime that knows the tables. *)
Lemma calculateDistance_antipode_witness :
  Antipode.tabulated Antipode.runtime /\
  Double.calculateDistance Antipode.runtime (-8) (-179) 8 1 = nan /\
  Double.calculateDistance Antipode.runtime 8 1 (-8) (-179) = nan /\
  (Double.calculateDistance Antipode.runtime (-8) (-179) 8 1
   =? Double.calculateDistance Antipode.runtime 8 1 (-8) (-179)) = false.
Proof.
  split; [exact tabulated_runtime |].
  destruct (calculateDistance_antipode Antipode.runtime tabulated_runtime)
    as (_ & _ & _ & _ & H).
  exact H.
Defined.

Lemma search_distances_not_ordered_witness :
  Antipode.tabulated Antipode.runtime /\
  map (Double.distance Antipode.runtime Antipode.user) Antipode.locations
  = [0x1.2aba99197cd01p+14; nan; 0] /\
  ~ Sorted Double.nearer_or_equal
      (map (Double.distance Antipode.runtime Antipode.user)
           Antipode.locations).
Proof.
  split; [exact tabulated_runtime |].
  destruct (search_distances_not_ordered Antipode.runtime tabulated_runtime)
    as (Hd & _ & Hl).
  split; [exact Hd | exact (Hl _ (Permutation_refl _))].
Defined.

End Binary64.

(** ** Running the monad *)

Ltac run :=
  unfold bind, ret, throw, get, modify, now, fetch_json, of_result in *;
  cbn [accessToken expiredAt loadedCities carParkData carParkCache ticks
       trace tick send set_token loadedCities_add carParkData_set
       carParkCache_set] in *.

Lemma truthy_Some (s : string) : truthy (Some s) = true <-> s <> EmptyString.
Proof.
  unfold truthy. destruct (String.eqb_spec s EmptyString); simpl; split;
    congruence.
Qed.

Lemma truthy_inv (v : option string) :
  truthy v = true -> exists s, v = Some s /\ s <> EmptyString.
Proof.
  destruct v as [s |]; [| discriminate].
  intros H. exists s. split; [reflexivity | now apply truthy_Some].
Qed.

(** ** Token manager *)

Section TokenManager.

Variable w : World.

(** A valid cached token is returned as it is; only the clock was read. *)
Lemma getAccessToken_cached (st : State) (tok : string) :
  accessToken st = Some tok -> tok <> EmptyString ->
  Date_now w (ticks st) < expiredAt st ->
  getAccessToken w st = (Return tok, tick st).
Proof.
  intros Htok Hne Hlt. unfold getAccessToken. run.
  rewrite Htok. apply truthy_Some in Hne. rewrite Hne.
  apply Z.ltb_lt in Hlt. rewrite Hlt. reflexivity.
Qed.

(** Without one, the credential request is sent and its answer decides. *)
Lemma getAccessToken_renew (st : State) :
  truthy (accessToken st) = false \/ expiredAt st <= Date_now w (ticks st) ->
  getAccessToken w st =
  match token_endpoint w (length (trace st)) with
  | None => (Throw FetchError, send TokenExchange (tick st))
  | Some data =>
      if truthy (Upstream.access_token data) then
        (Return (default EmptyString (Upstream.access_token data)),
         set_token (Date_now w (ticks st)
                    + Upstream.expires_in data * 1000 - 60000)
                   (Upstream.access_token data)
                   (send TokenExchange (tick st)))
      else (Throw TokenError, send TokenExchange (tick st))
  end.
Proof.
  intros Hc. unfold getAccessToken. run.
  assert (Hb : truthy (accessToken st)
               && (Date_now w (ticks st) <? expiredAt st) = false).
  { destruct Hc as [Hc | Hc]; [now rewrite Hc |].
    apply Z.ltb_ge in Hc. rewrite Hc. apply andb_false_r. }
  rewrite Hb. cbn [trace tick].
  destruct (token_endpoint w (length (trace st))) as [data |];
    [| reflexivity].
  destruct (truthy (Upstream.access_token data)); reflexivity.
Qed.

Lemma getAccessToken_cases (st : State) :
  (exists tok, accessToken st = Some tok /\ tok <> EmptyString /\
               Date_now w (ticks st) < expiredAt st) \/
  (truthy (accessToken st) = false \/ expiredAt st <= Date_now w (ticks st)).
Proof.
  destruct (truthy (accessToken st)) eqn:Ht; [| right; now left].
  destruct (Z.lt_ge_cases (Date_now w (ticks st)) (expiredAt st)).
  - left. apply truthy_inv in Ht as (s & Hs & Hne). eauto.
  - right. now right.
Qed.

(** What a call leaves alone, and what a returned token is. *)
Lemma getAccessToken_frame (st st' : State) (r : Outcome string) :
  getAccessToken w st = (r, st') ->
  loadedCities st' = loadedCities st /\
  carParkData st' = carParkData st /\
  carParkCache st' = carParkCache st /\
  ticks st' = S (ticks st) /\
  (trace st' = trace st \/ trace st' = trace st ++ [TokenExchange]).
Proof.
  destruct (getAccessToken_cases st) as [(tok & Ht & Hne & Hlt) | Hc].
  - rewrite (getAccessToken_cached st tok Ht Hne Hlt).
    intros [= <- <-]. simpl. tauto.
  - rewrite (getAccessToken_renew st Hc).
    destruct (token_endpoint w (length (trace st))) as [data |].
    + destruct (truthy (Upstream.access_token data));
        intros [= <- <-]; simpl; tauto.
    + intros [= <- <-]. simpl. tauto.
Qed.

Lemma getAccessToken_returns (st st' : State) (tok : string) :
  getAccessToken w st = (Return tok, st') ->
  accessToken st' = Some tok /\ tok <> EmptyString.
Proof.
  destruct (getAccessToken_cases st) as [(tok0 & Ht & Hne & Hlt) | Hc].
  - rewrite (getAccessToken_cached st tok0 Ht Hne Hlt).
    intros [= <- <-]. simpl. tauto.
  - rewrite (getAccessToken_renew st Hc).
    destruct (token_endpoint w (length (trace st))) as [data |];
      [| discriminate].
    destruct (truthy (Upstream.access_token data)) eqn:Hd; [| discriminate].
    intros [= <- <-]. simpl.
    apply truthy_inv in Hd as (s & -> & Hs). simpl. tauto.
Qed.

End TokenManager.

(** C5. [getAccessToken] returns a cached token whose expiry the clock has
    not reached, unchanged and without any request; otherwise it sends
    exactly one credential request, and on an answer that carries a token
    stores it with [expiredAt = now + expires_in * 1000 - 60000] and
    returns it, and on an answer without a token throws and keeps what
    was cached; a token it returned is returned again, without a request,
    by any later call that reads the clock before that expiry. *)
Theorem getAccessToken_reuse_and_renewal (w : World) (st : State) :
  let now := Date_now w (ticks st) in
  (forall tok,
      accessToken st = Some tok -> tok <> EmptyString -> now < expiredAt st ->
      getAccessToken w st = (Return tok, tick st)) /\
  (truthy (accessToken st) = false \/ expiredAt st <= now ->
   (forall r st', getAccessToken w st = (r, st') ->
                  trace st' = trace st ++ [TokenExchange]) /\
   (forall data tok,
       token_endpoint w (length (trace st)) = Some data ->
       Upstream.access_token data = Some tok -> tok <> EmptyString ->
       exists st',
         getAccessToken w st = (Return tok, st') /\
         expiredAt st' = now + Upstream.expires_in data * 1000 - 60000 /\
         accessToken st' = Some tok) /\
   (forall data,
       token_endpoint w (length (trace st)) = Some data ->
       truthy (Upstream.access_token data) = false ->
       exists st',
         getAccessToken w st = (Throw TokenError, st') /\
         accessToken st' = accessToken st /\ expiredAt st' = expiredAt st)) /\
  (forall tok st1 st2,
      getAccessToken w st = (Return tok, st1) ->
      accessToken st2 = accessToken st1 -> expiredAt st2 = expiredAt st1 ->
      Date_now w (ticks st2) < expiredAt st1 ->
      getAccessToken w st2 = (Return tok, tick st2)).
Proof.
  intros now. split; [| split].
  - intros tok. apply getAccessToken_cached.
  - intros Hc. pose proof (getAccessToken_renew w st Hc) as Heq.
    fold now in Heq. split; [| split].
    + intros r st'. rewrite Heq.
      destruct (token_endpoint w (length (trace st))) as [data |].
      * destruct (truthy (Upstream.access_token data));
          now intros [= <- <-].
      * now intros [= <- <-].
    + intros data tok Hd Ht Hne. rewrite Heq, Hd, Ht.
      apply truthy_Some in Hne. rewrite Hne. eexists. split; [reflexivity |].
      simpl. tauto.
    + intros data Hd Ht. rewrite Heq, Hd, Ht. eexists.
      split; [reflexivity |]. simpl. tauto.
  - intros tok st1 st2 Hcall Ha He Hlt.
    apply getAccessToken_returns in Hcall as [Htok Hne].
    apply getAccessToken_cached; [congruence | assumption | lia].
Qed.

(** ** Availability cache *)

Section AvailabilityCache.

Variable w : World.

(** A snapshot whose expiry the clock has not reached is served as it
    is; only the clock was read. *)
Lemma getAvailableCarParks_hit (city : option string) (st : State)
    (cache : Cache.t) :
  carParkCache st !! city = Some cache ->
  Date_now w (ticks st) < Cache.expiredAt cache ->
  getAvailableCarParks w city st = (Return (Cache.values cache), tick st).
Proof.
  intros Hc Hlt. unfold getAvailableCarParks. run. rewrite Hc.
  apply Z.lt_gt, Z.gtb_gt in Hlt. rewrite Hlt. reflexivity.
Qed.

(** Otherwise the token manager is asked, the feed is fetched, and its
    answer decides. *)
Lemma getAvailableCarParks_miss (city : option string) (st : State) :
  (forall cache, carParkCache st !! city = Some cache ->
                 Cache.expiredAt cache <= Date_now w (ticks st)) ->
  getAvailableCarParks w city st =
  match getAccessToken w (match carParkCache st !! city with
                          | Some _ => tick st
                          | None => st
                          end) with
  | (Throw e, st1) => (Throw e, st1)
  | (Return _, st1) =>
      match availability_endpoint w (length (trace st1)) (url_city city) with
      | None =>
          (Throw FetchError, send (FetchAvailability (url_city city)) st1)
      | Some None =>
          (Throw TypeError,
           tick (send (FetchAvailability (url_city city)) st1))
      | Some (Some lots) =>
          (Return lots,
           carParkCache_set city
             {| Cache.expiredAt := Date_now w (ticks st1) + 60000;
                Cache.values := lots |}
             (tick (send (FetchAvailability (url_city city)) st1)))
      end
  end.
Proof.
  intros Hstale. unfold getAvailableCarParks. run.
  destruct (carParkCache st !! city) as [cache |] eqn:Hc.
  - specialize (Hstale cache eq_refl).
    assert (Hb : (Cache.expiredAt cache >? Date_now w (ticks st)) = false).
    { rewrite Z.gtb_ltb. now apply Z.ltb_ge. }
    rewrite Hb.
    destruct (getAccessToken w (tick st)) as [[tok | e] st1];
      [| reflexivity].
    destruct (availability_endpoint w (length (trace st1)) (url_city city))
      as [[lots |] |]; try reflexivity.
    now rewrite lookup_insert_eq.
  - destruct (getAccessToken w st) as [[tok | e] st1]; [| reflexivity].
    destruct (availability_endpoint w (length (trace st1)) (url_city city))
      as [[lots |] |]; try reflexivity.
    now rewrite lookup_insert_eq.
Qed.

Lemma getAvailableCarParks_cases (city : option string) (st : State) :
  (exists cache, carParkCache st !! city = Some cache /\
                 Date_now w (ticks st) < Cache.expiredAt cache) \/
  (forall cache, carParkCache st !! city = Some cache ->
                 Cache.expiredAt cache <= Date_now w (ticks st)).
Proof.
  destruct (carParkCache st !! city) as [cache |].
  - destruct (Z.lt_ge_cases (Date_now w (ticks st)) (Cache.expiredAt cache)).
    + left. eauto.
    + right. now intros ? [= <-].
  - right. discriminate.
Qed.

(** A returned list is the one the final state caches for the city; the
    token and the metadata maps are touched by the token manager only. *)
Lemma getAvailableCarParks_returns (city : option string) (st st' : State)
    (lots : list Lot) :
  getAvailableCarParks w city st = (Return lots, st') ->
  (exists cache, carParkCache st' !! city = Some cache /\
                 Cache.values cache = lots) /\
  loadedCities st' = loadedCities st /\ carParkData st' = carParkData st.
Proof.
  destruct (getAvailableCarParks_cases city st) as [(cache & Hc & Hlt) | Hs].
  - rewrite (getAvailableCarParks_hit city st cache Hc Hlt).
    intros [= <- <-]. simpl. eauto.
  - rewrite (getAvailableCarParks_miss city st Hs).
    destruct (getAccessToken w _) as [[tok | e] st1] eqn:Ht;
      [| discriminate].
    apply getAccessToken_frame in Ht as (Hl & Hd & _).
    destruct (availability_endpoint w (length (trace st1)) (url_city city))
      as [[lots' |] |]; try discriminate.
    intros [= <- <-]. simpl. rewrite lookup_insert_eq.
    split; [eauto |].
    rewrite Hl, Hd. destruct (carParkCache st !! city); simpl; tauto.
Qed.

End AvailabilityCache.

(** C4. [getAvailableCarParks] serves the cached list of a city, unchanged
    and without any request, when the clock is before the snapshot's
    expiry; a list it returns otherwise was fetched by this very call and
    replaces the city's entry with expiry 60000 ms after the clock reading
    taken when it is stored, which is what happens whenever the token
    manager and the feed answer. *)
Theorem getAvailableCarParks_ttl (w : World) (city : option string)
    (st : State) :
  (forall cache,
      carParkCache st !! city = Some cache ->
      Date_now w (ticks st) < Cache.expiredAt cache ->
      getAvailableCarParks w city st = (Return (Cache.values cache), tick st))
  /\
  ((forall cache, carParkCache st !! city = Some cache ->
                  Cache.expiredAt cache <= Date_now w (ticks st)) ->
   (forall lots st',
       getAvailableCarParks w city st = (Return lots, st') ->
       exists pre,
         trace st' = trace st ++ pre ++ [FetchAvailability (url_city city)] /\
         availability_endpoint w (length (trace st ++ pre)) (url_city city)
         = Some (Some lots) /\
         carParkCache st' =
         <[ city := {| Cache.expiredAt :=
                         Date_now w (pred (ticks st')) + 60000;
                       Cache.values := lots |} ]> (carParkCache st)) /\
   (forall tok st1 lots,
       getAccessToken w (match carParkCache st !! city with
                         | Some _ => tick st
                         | None => st
                         end) = (Return tok, st1) ->
       availability_endpoint w (length (trace st1)) (url_city city)
       = Some (Some lots) ->
       exists st', getAvailableCarParks w city st = (Return lots, st'))).
Proof.
  split.
  - intros cache. apply getAvailableCarParks_hit.
  - intros Hs. rewrite (getAvailableCarParks_miss w city st Hs). split.
    + intros lots st'.
      destruct (getAccessToken w _) as [[tok | e] st1] eqn:Ht;
        [| discriminate].
      apply getAccessToken_frame in Ht as (_ & _ & Hc & Hk & Htr).
      destruct (availability_endpoint w (length (trace st1)) (url_city city))
        as [[lots' |] |] eqn:Ha; try discriminate.
      intros [= <- <-]. simpl.
      assert (Htr' : exists pre, trace st1 = trace st ++ pre).
      { destruct (carParkCache st !! city); simpl in Htr;
          destruct Htr as [-> | ->]; [exists [] | eexists | exists [] | eexists];
          try reflexivity; now rewrite app_nil_r. }
      destruct Htr' as [pre Hpre]. exists pre.
      rewrite Hpre, <- app_assoc. split; [reflexivity |].
      rewrite <- Hpre. split; [assumption |].
      rewrite Hc. destruct (carParkCache st !! city); reflexivity.
    + intros tok st1 lots -> ->. eauto.
Qed.

(** ** Metadata loader *)

Section MetadataLoader.

Variable w : World.

(** What the loop leaves alone, and where a stored entry comes from. *)
Lemma for_of_storeCarPark (city : City) (carParks : list Upstream.CarPark) :
  forall (st st' : State) (r : Outcome unit),
    for_of carParks (storeCarPark city) st = (r, st') ->
    expiredAt st' = expiredAt st /\ accessToken st' = accessToken st /\
    loadedCities st' = loadedCities st /\
    carParkCache st' = carParkCache st /\
    ticks st' = ticks st /\ trace st' = trace st /\
    forall key entry,
      carParkData st' !! key = Some entry ->
      carParkData st !! key = Some entry \/
      exists carPark,
        In carPark carParks /\
        key = carParkKey city (Upstream.CarParkID carPark) /\
        carParkEntry carPark = Some entry.
Proof.
  induction carParks as [| carPark carParks IH]; intros st st' r.
  - simpl. run. intros [= <- <-]. repeat split; auto.
  - simpl. unfold storeCarPark at 1. run.
    destruct (carParkEntry carPark) as [entry |] eqn:He.
    + intros Hrest. apply IH in Hrest as (? & ? & ? & ? & ? & ? & Hkeys).
      simpl in *. repeat split; try assumption.
      intros key entry' Hk. apply Hkeys in Hk as [Hk | (cp & Hin & -> & Hcp)].
      * destruct (decide
                    (carParkKey city (Upstream.CarParkID carPark) = key))
          as [<- | Hne].
        -- rewrite lookup_insert_eq in Hk. injection Hk as <-.
           right. exists carPark. auto.
        -- rewrite lookup_insert_ne in Hk by assumption. now left.
      * right. exists cp. auto.
    + intros [= <- <-]. repeat split; auto.
Qed.

Lemma loadMockCarParkData_loaded (city : City) (st : State) :
  City_value city ∈ loadedCities st ->
  loadMockCarParkData w city st = (Return tt, st).
Proof.
  intros Hin. unfold loadMockCarParkData. run.
  destruct (decide (City_value city ∈ loadedCities st)); [reflexivity |].
  contradiction.
Qed.

Lemma loadMockCarParkData_unloaded (city : City) (st : State) :
  City_value city ∉ loadedCities st ->
  loadMockCarParkData w city st =
  match getAccessToken w st with
  | (Throw e, st1) => (Throw e, st1)
  | (Return _, st1) =>
      let sent := send (FetchCarParks (City_value city)) st1 in
      match carpark_endpoint w (length (trace st1)) (City_value city) with
      | None => (Throw FetchError, sent)
      | Some None =>
          (Throw TypeError, loadedCities_add (City_value city) sent)
      | Some (Some carParks) =>
          for_of carParks (storeCarPark city)
                 (loadedCities_add (City_value city) sent)
      end
  end.
Proof.
  intros Hin. unfold loadMockCarParkData. run.
  destruct (decide (City_value city ∈ loadedCities st)); [contradiction |].
  destruct (getAccessToken w st) as [[tok | e] st1]; [| reflexivity].
  destruct (carpark_endpoint w (length (trace st1)) (City_value city))
    as [[carParks |] |]; reflexivity.
Qed.

(** The loader never touches the availability cache, and an entry of the
    metadata map it leaves was there before or is the entry of a record
    of the feed. *)
Lemma loadMockCarParkData_frame (city : City) (st st' : State)
    (r : Outcome unit) :
  loadMockCarParkData w city st = (r, st') ->
  carParkCache st' = carParkCache st /\
  forall key entry,
    carParkData st' !! key = Some entry ->
    carParkData st !! key = Some entry \/
    exists carPark,
      key = carParkKey city (Upstream.CarParkID carPark) /\
      carParkEntry carPark = Some entry.
Proof.
  destruct (decide (City_value city ∈ loadedCities st)) as [Hin | Hin].
  - rewrite (loadMockCarParkData_loaded city st Hin).
    intros [= <- <-]. auto.
  - rewrite (loadMockCarParkData_unloaded city st Hin).
    destruct (getAccessToken w st) as [[tok | e] st1] eqn:Ht.
    + apply getAccessToken_frame in Ht as (_ & Hd & Hc & _).
      destruct (carpark_endpoint w (length (trace st1)) (City_value city))
        as [[carParks |] |].
      * intros Hloop.
        apply for_of_storeCarPark in Hloop as (_ & _ & _ & Hc' & _ & _ & Hk).
        simpl in *. split; [congruence |].
        intros key entry Hl. apply Hk in Hl as [Hl | (cp & _ & ? & ?)].
        -- left. congruence.
        -- right. eauto.
      * intros [= <- <-]. simpl. split; [assumption |].
        intros key entry Hl. left. congruence.
      * intros [= <- <-]. simpl. split; [assumption |].
        intros key entry Hl. left. congruence.
    + apply getAccessToken_frame in Ht as (_ & Hd & Hc & _).
      intros [= <- <-]. split; [assumption |].
      intros key entry Hl. left. congruence.
Qed.

(** A fetch that rejects leaves the city unmarked. *)
Lemma loadMockCarParkData_fetch_rejects (city : City) (st st' : State)
    (r : Outcome unit) :
  loadMockCarParkData w city st = (r, st') ->
  (forall n, carpark_endpoint w n (City_value city) = None) ->
  loadedCities st' = loadedCities st.
Proof.
  intros Hrun Hnone.
  destruct (decide (City_value city ∈ loadedCities st)) as [Hin | Hin].
  - rewrite (loadMockCarParkData_loaded city st Hin) in Hrun.
    now injection Hrun as _ <-.
  - rewrite (loadMockCarParkData_unloaded city st Hin) in Hrun.
    destruct (getAccessToken w st) as [[tok | e] st1] eqn:Ht;
      apply getAccessToken_frame in Ht as (Hl & _).
    + rewrite Hnone in Hrun. now injection Hrun as _ <-.
    + now injection Hrun as _ <-.
Qed.

End MetadataLoader.

(** What [carParkEntry] stores for the optional fields of a record. *)
Lemma carParkEntry_fields (carPark : Upstream.CarPark) (entry : Meta.t) :
  carParkEntry carPark = Some entry ->
  Meta.description entry = or_str (Upstream.Description carPark) EmptyString /\
  Meta.telephone entry =
    or_str (Upstream.Telephone carPark)
           (or_str (Upstream.EmergencyPhone carPark) EmptyString) /\
  Meta.imageURL entry = head (default [] (Upstream.ImageURLs carPark)).
Proof.
  unfold carParkEntry.
  destruct (Upstream.CarParkName carPark), (Upstream.CarParkPosition carPark);
    try discriminate.
  intros [= <-]. simpl. auto.
Qed.

(** The key determines the city and the lot id: no city value holds a
    hyphen or begins another. *)
Lemma carParkKey_injective (city1 city2 : City) (id1 id2 : string) :
  carParkKey city1 id1 = carParkKey city2 id2 -> city1 = city2 /\ id1 = id2.
Proof.
  unfold carParkKey.
  destruct city1, city2; intros H; vm_compute in H; split; congruence.
Qed.

(** A record with another lot id leaves the entry of a lot id alone. *)
Lemma for_of_storeCarPark_other_ids (city : City)
    (carParks : list Upstream.CarPark) (id : string) :
  Forall (fun c => Upstream.CarParkID c <> id) carParks ->
  forall (st st' : State) (r : Outcome unit),
    for_of carParks (storeCarPark city) st = (r, st') ->
    carParkData st' !! carParkKey city id = carParkData st !! carParkKey city id.
Proof.
  induction 1 as [| carPark carParks Hne _ IH]; intros st st' r; simpl.
  - run. now intros [= _ <-].
  - unfold storeCarPark at 1. run.
    destruct (carParkEntry carPark) as [entry |].
    + intros Hrest. apply IH in Hrest. rewrite Hrest. simpl.
      apply lookup_insert_ne. intros Heq.
      now apply carParkKey_injective in Heq as [_ Heq].
    + now intros [= _ <-].
Qed.

(** A record that the loop reaches is stored, and its entry is the one
    under its lot id at the end unless a later record has the same id,
    whether the loop then runs to its end or throws at a later record. *)
Lemma for_of_storeCarPark_stored (city : City)
    (before after : list Upstream.CarPark) (carPark : Upstream.CarPark)
    (entry : Meta.t) :
  Forall (fun c => is_Some (carParkEntry c)) before ->
  carParkEntry carPark = Some entry ->
  Forall (fun c => Upstream.CarParkID c <> Upstream.CarParkID carPark) after ->
  forall (st st' : State) (r : Outcome unit),
    for_of (before ++ carPark :: after) (storeCarPark city) st = (r, st') ->
    carParkData st' !! carParkKey city (Upstream.CarParkID carPark)
    = Some entry.
Proof.
  intros Hbefore Hentry Hafter.
  induction Hbefore as [| c before [e He] _ IH]; intros st st' r; simpl.
  - unfold storeCarPark at 1. rewrite Hentry. run. intros Hrest.
    apply (for_of_storeCarPark_other_ids city after _ Hafter) in Hrest.
    rewrite Hrest. simpl. apply lookup_insert_eq.
  - unfold storeCarPark at 1. rewrite He. run. apply IH.
Qed.

(** ** Sort *)

Section Sort.

Context {A : Type}.
Variable comparefn : A -> A -> Number.

Lemma insert_permutation (x : A) (l : list A) :
  Permutation (Array.insert comparefn x l) (x :: l).
Proof.
  induction l as [| y l IH]; simpl; [reflexivity |].
  destruct (positive (comparefn x y)); [| reflexivity].
  rewrite IH. apply perm_swap.
Qed.

Lemma sort_permutation (l : list A) :
  Permutation (Array.sort comparefn l) l.
Proof.
  induction l as [| x l IH]; simpl; [reflexivity |].
  fold (Array.sort comparefn l).
  rewrite insert_permutation. now apply perm_skip.
Qed.

(** The comparator orders the elements that satisfy [P] the way the
    transitive relation [le] does. *)
Variable P : A -> Prop.
Variable le : A -> A -> Prop.
Hypothesis le_trans : forall x y z, le x y -> le y z -> le x z.
Hypothesis not_positive_le :
  forall x y, P x -> P y -> positive (comparefn x y) = false -> le x y.
Hypothesis positive_ge :
  forall x y, P x -> P y -> positive (comparefn x y) = true -> le y x.

Lemma insert_sorted (x : A) (l : list A) :
  P x -> Forall P l -> StronglySorted le l ->
  StronglySorted le (Array.insert comparefn x l).
Proof.
  intros Hx HP Hs. induction Hs as [| y l Hs IH Hy]; simpl.
  - repeat constructor.
  - apply Forall_cons_iff in HP as [HPy HPl].
    destruct (positive (comparefn x y)) eqn:Hc.
    + constructor; [now apply IH |].
      rewrite insert_permutation. constructor; [| assumption].
      now apply positive_ge.
    + assert (Hxy : le x y) by now apply not_positive_le.
      constructor; [now constructor |].
      constructor; [assumption |].
      eapply Forall_impl; [exact Hy |].
      intros z Hz. now apply le_trans with y.
Qed.

Lemma sort_sorted (l : list A) :
  Forall P l -> StronglySorted le (Array.sort comparefn l).
Proof.
  induction l as [| x l IH]; simpl; intros HP; [constructor |].
  apply Forall_cons_iff in HP as [Hx Hl].
  fold (Array.sort comparefn l). apply insert_sorted; auto.
  now rewrite sort_permutation.
Qed.

End Sort.

(** ** Schema *)

Lemma nativeEnum_issues {A} (all : list A) (value : A -> string)
    (path : string) (v : option string) :
  z.issues (z.nativeEnum all value path v) = [] \/
  z.issues (z.nativeEnum all value path v) = [path].
Proof.
  unfold z.nativeEnum. destruct v as [s |]; [| now right].
  destruct (find _ all); [now left | now right].
Qed.

Lemma default_issues {A} (all : list A) (value : A -> string)
    (path : string) (d : A) (v : option string) :
  z.issues (z.default (z.nativeEnum all value path) d v) = [] \/
  z.issues (z.default (z.nativeEnum all value path) d v) = [path].
Proof.
  destruct v as [s |]; [apply nativeEnum_issues | now left].
Qed.

(** Without a [location] the parsed query carries none, and no issue is
    about it. *)
Lemma parse_without_location (i : Input.t) :
  Input.location i = None ->
  match ParkingSearchSchema_parse i with
  | inr params => Params.location params = None
  | inl (ZodError issues) =>
      forall path, In path issues ->
                   In path ["city"; "parkingType"; "availability"]
  | inl _ => False
  end.
Proof.
  intros Hl. unfold ParkingSearchSchema_parse. rewrite Hl. simpl.
  pose proof (nativeEnum_issues City_all City_value "city" (Input.city i))
    as Hc.
  pose proof (default_issues ParkingType_all ParkingType_value "parkingType"
                Car (Input.parkingType i)) as Hp.
  pose proof (default_issues ParkingAvailability_all ParkingAvailability_value
                "availability" Available (Input.availability i)) as Ha.
  destruct (z.nativeEnum City_all City_value "city" (Input.city i)),
    (z.default (z.nativeEnum ParkingType_all ParkingType_value "parkingType")
       Car (Input.parkingType i)),
    (z.default (z.nativeEnum ParkingAvailability_all
                  ParkingAvailability_value "availability")
       Available (Input.availability i));
    simpl in *; try reflexivity; intros path;
    destruct Hc as [Hc | Hc], Hp as [Hp | Hp], Ha as [Ha | Ha];
    try discriminate; subst; simpl; tauto.
Qed.

Lemma parse_throws_ZodError (i : Input.t) (e : Error) :
  ParkingSearchSchema_parse i = inl e -> exists issues, e = ZodError issues.
Proof.
  unfold ParkingSearchSchema_parse.
  destruct (z.nativeEnum _ _ _ _), (z.default _ _ _), (z.default _ _ _),
    (z.optional _ _); intros [= <-]; eauto.
Qed.

(** ** What the components throw *)

Lemma getAccessToken_throws (w : World) (st st' : State) (e : Error) :
  getAccessToken w st = (Throw e, st') -> e = TokenError \/ e = FetchError.
Proof.
  destruct (getAccessToken_cases w st) as [(tok & Ht & Hne & Hlt) | Hc].
  - now rewrite (getAccessToken_cached w st tok Ht Hne Hlt).
  - rewrite (getAccessToken_renew w st Hc).
    destruct (token_endpoint w (length (trace st))) as [data |].
    + destruct (truthy (Upstream.access_token data)); intros [= <- <-]; auto.
    + intros [= <- <-]. auto.
Qed.

Lemma getAvailableCarParks_throws (w : World) (city : option string)
    (st st' : State) (e : Error) :
  getAvailableCarParks w city st = (Throw e, st') ->
  e = TokenError \/ e = FetchError \/ e = TypeError.
Proof.
  destruct (getAvailableCarParks_cases w city st) as [(cache & Hc & Hlt) | Hs].
  - now rewrite (getAvailableCarParks_hit w city st cache Hc Hlt).
  - rewrite (getAvailableCarParks_miss w city st Hs).
    destruct (getAccessToken w _) as [[tok | e'] st1] eqn:Ht.
    + destruct (availability_endpoint w (length (trace st1)) (url_city city))
        as [[lots |] |]; intros [= <- <-]; auto.
    + apply getAccessToken_throws in Ht. intros [= <- <-]. tauto.
Qed.

Lemma for_of_storeCarPark_throws (city : City)
    (carParks : list Upstream.CarPark) :
  forall (st st' : State) (e : Error),
    for_of carParks (storeCarPark city) st = (Throw e, st') -> e = TypeError.
Proof.
  induction carParks as [| carPark carParks IH]; intros st st' e; simpl.
  - discriminate.
  - unfold storeCarPark at 1. run.
    destruct (carParkEntry carPark); [apply IH | now intros [= <- <-]].
Qed.

Lemma loadMockCarParkData_throws (w : World) (city : City) (st st' : State)
    (e : Error) :
  loadMockCarParkData w city st = (Throw e, st') ->
  e = TokenError \/ e = FetchError \/ e = TypeError.
Proof.
  destruct (decide (City_value city ∈ loadedCities st)) as [Hin | Hin].
  - now rewrite (loadMockCarParkData_loaded w city st Hin).
  - rewrite (loadMockCarParkData_unloaded w city st Hin).
    destruct (getAccessToken w st) as [[tok | e'] st1] eqn:Ht.
    + destruct (carpark_endpoint w (length (trace st1)) (City_value city))
        as [[carParks |] |].
      * intros Hloop. apply for_of_storeCarPark_throws in Hloop. auto.
      * intros [= <- <-]. auto.
      * intros [= <- <-]. auto.
    + apply getAccessToken_throws in Ht. intros [= <- <-]. tauto.
Qed.

(** ** Search orchestrator *)

Section Handler.

Variable w : World.

(** A success went through the four steps, in the order of the code. *)
Lemma handler_200 (req : Request) (st st' : State) (items : list Item.t) :
  handler w req st = (Status200 items, st') ->
  exists data st1 params,
    getAvailableCarParks w (Query.city (query req)) st = (Return data, st1)
    /\ ParkingSearchSchema_parse (parse_argument w (query req)) = inr params
    /\ loadMockCarParkData w (Params.city params) st1 = (Return tt, st')
    /\ items = search st' params data.
Proof.
  unfold handler.
  destruct (negb (String.eqb (method req) "GET")); [discriminate |]. run.
  destruct (getAvailableCarParks w (Query.city (query req)) st)
    as [[data | e] st1]; [| discriminate].
  destruct (ParkingSearchSchema_parse (parse_argument w (query req)))
    as [e | params]; run; [discriminate |].
  destruct (loadMockCarParkData w (Params.city params) st1)
    as [[[] | e] st2] eqn:Hl; [| discriminate].
  intros [= <- <-]. exists data, st1, params. auto.
Qed.

(** The lots a success was computed from are those of the snapshot the
    final state caches for the request's city. *)
Lemma handler_snapshot (req : Request) (st st' : State)
    (items : list Item.t) :
  handler w req st = (Status200 items, st') ->
  exists params cache,
    ParkingSearchSchema_parse (parse_argument w (query req)) = inr params /\
    carParkCache st' !! Query.city (query req) = Some cache /\
    items = search st' params (Cache.values cache).
Proof.
  intros H. apply handler_200 in H as (data & st1 & params & Ha & Hp & Hl & ->).
  apply getAvailableCarParks_returns in Ha as ((cache & Hc & <-) & _).
  apply loadMockCarParkData_frame in Hl as [Hcc _].
  exists params, cache. rewrite Hcc. auto.
Qed.

(** A validation error comes from the parse of the query. *)
Lemma handler_400_ZodError (req : Request) (st st' : State)
    (issues : list string) :
  handler w req st = (Status400 (ZodError issues), st') ->
  ParkingSearchSchema_parse (parse_argument w (query req))
  = inl (ZodError issues).
Proof.
  unfold handler.
  destruct (negb (String.eqb (method req) "GET")); [discriminate |]. run.
  destruct (getAvailableCarParks w (Query.city (query req)) st)
    as [[data | e] st1] eqn:Ha.
  - destruct (ParkingSearchSchema_parse (parse_argument w (query req)))
      as [e | params]; run.
    + now intros [= -> <-].
    + destruct (loadMockCarParkData w (Params.city params) st1)
        as [[[] | e] st2] eqn:Hl; [discriminate |].
      apply loadMockCarParkData_throws in Hl.
      intros [= -> <-]. now destruct Hl as [? | [? | ?]].
  - apply getAvailableCarParks_throws in Ha.
    intros [= -> <-]. now destruct Ha as [? | [? | ?]].
Qed.

End Handler.

(** ** Filter, join and sort *)

Lemma keeps_iff (params : Params.t) (lot : Lot) :
  keeps params lot = true <->
  exists avail,
    In avail (Availabilities lot) /\
    SpaceType avail = spaceTypeMapping (Params.parkingType params) /\
    availableSpaceTypes (Params.availability params) <= AvailableSpaces avail.
Proof.
  unfold keeps. rewrite existsb_exists.
  split; intros (avail & Hin & H); exists avail; (split; [assumption |]).
  - apply andb_true_iff in H as [Ht Ha].
    apply Z.eqb_eq in Ht. apply Z.geb_le in Ha. auto.
  - destruct H as [Ht Ha]. apply andb_true_iff.
    split; [now apply Z.eqb_eq | now apply Z.geb_le].
Qed.

Lemma search_permutation (st : State) (params : Params.t) (data : list Lot) :
  Permutation (search st params data)
              (map (toItem st params) (List.filter (keeps params) data)).
Proof. apply sort_permutation. Qed.

Lemma search_sorted_by_spaces (st : State) (params : Params.t)
    (data : list Lot) :
  Params.location params = None ->
  StronglySorted no_fewer_spaces (search st params data).
Proof.
  intros Hloc. unfold search.
  apply sort_sorted with (P := fun _ => True).
  - unfold no_fewer_spaces. intros a b c. lia.
  - intros a b _ _. unfold compareLots, no_fewer_spaces, positive.
    rewrite Hloc. intros H. apply Z.ltb_ge in H. lia.
  - intros a b _ _. unfold compareLots, no_fewer_spaces, positive.
    rewrite Hloc. intros H. apply Z.ltb_lt in H. lia.
  - apply List.Forall_forall. auto.
Qed.

(** C2. In a successful response the items are, up to their order, the
    joins of exactly those lots of the city's snapshot that the filter
    keeps, and the filter keeps a lot exactly when one of its entries has
    the space type of the requested parking type (Car 1, Scooter 2,
    Heavy 5) and at least as many available spaces as the threshold of
    the requested tier (Any 0, Available 1, Many 5, Few 3); a lot whose
    entries of that type are all below the threshold, or that has no
    entry of that type, is dropped. *)
Theorem handler_filter (w : World) (req : Request) (st st' : State)
    (items : list Item.t) :
  handler w req st = (Status200 items, st') ->
  exists params cache,
    ParkingSearchSchema_parse (parse_argument w (query req)) = inr params /\
    carParkCache st' !! Query.city (query req) = Some cache /\
    Permutation items
      (map (toItem st' params)
           (List.filter (keeps params) (Cache.values cache))) /\
    (forall lot,
        keeps params lot = true <->
        exists avail,
          In avail (Availabilities lot) /\
          SpaceType avail = spaceTypeMapping (Params.parkingType params) /\
          availableSpaceTypes (Params.availability params)
          <= AvailableSpaces avail) /\
    (forall lot,
        (forall avail,
            In avail (Availabilities lot) ->
            SpaceType avail = spaceTypeMapping (Params.parkingType params) ->
            AvailableSpaces avail
            < availableSpaceTypes (Params.availability params)) ->
        keeps params lot = false) /\
    (forall lot,
        (forall avail,
            In avail (Availabilities lot) ->
            SpaceType avail <> spaceTypeMapping (Params.parkingType params)) ->
        keeps params lot = false) /\
    (spaceTypeMapping Car = 1 /\ spaceTypeMapping Scooter = 2 /\
     spaceTypeMapping Heavy = 5) /\
    (availableSpaceTypes Any = 0 /\ availableSpaceTypes Available = 1 /\
     availableSpaceTypes Many = 5 /\ availableSpaceTypes Few = 3).
Proof.
  intros H. apply handler_snapshot in H as (params & cache & Hp & Hc & ->).
  exists params, cache.
  split; [assumption |]. split; [assumption |].
  split; [apply search_permutation |].
  split; [apply keeps_iff |].
  split; [| split; [| split; [now repeat split | now repeat split]]].
  - intros lot Hall. apply not_true_is_false. intros Hk.
    apply keeps_iff in Hk as (avail & Hin & Ht & Ha).
    specialize (Hall avail Hin Ht). lia.
  - intros lot Hall. apply not_true_is_false. intros Hk.
    apply keeps_iff in Hk as (avail & Hin & Ht & Ha).
    now apply (Hall avail Hin).
Qed.

(** The parsed query carries a coordinate exactly when the request has
    both coordinate parameters. *)
Lemma parse_location (w : World) (q : Query.t) (params : Params.t) :
  ParkingSearchSchema_parse (parse_argument w q) = inr params ->
  Params.location params <> None <->
  truthy (Query.latitude q) && truthy (Query.longitude q) = true.
Proof.
  intros Hp.
  destruct (truthy (Query.latitude q) && truthy (Query.longitude q)) eqn:Hb.
  - split; [reflexivity | intros _].
    unfold ParkingSearchSchema_parse, parse_argument in Hp.
    cbn [Input.city Input.parkingType Input.availability Input.location]
      in Hp.
    rewrite Hb in Hp. unfold z.optional in Hp.
    destruct (z.nativeEnum _ _ _ _), (z.default _ _ _), (z.default _ _ _),
      (LocationSchema _); try discriminate.
    injection Hp as <-. discriminate.
  - pose proof (parse_without_location (parse_argument w q)) as Hnone.
    rewrite Hp in Hnone. unfold parse_argument in Hnone at 1.
    cbn [Input.location] in Hnone. rewrite Hb in Hnone.
    rewrite (Hnone eq_refl). split; [contradiction | discriminate].
Qed.

(** C7. A lot of the snapshot that the filter keeps and for which the
    metadata map has no entry under (city, lot id) is in the response,
    with empty address, telephone and image URL and the coordinate
    (0, 0); its distance is the distance from the user coordinate to
    (0, 0) when the query carries one, and undefined otherwise. *)
Theorem handler_missing_metadata (w : World) (req : Request) (st st' : State)
    (items : list Item.t) :
  handler w req st = (Status200 items, st') ->
  exists params cache,
    ParkingSearchSchema_parse (parse_argument w (query req)) = inr params /\
    carParkCache st' !! Query.city (query req) = Some cache /\
    forall lot,
      In lot (Cache.values cache) ->
      keeps params lot = true ->
      getMockCarParkData st' (Params.city params) (CarParkID lot) = None ->
      exists item,
        In item items /\
        item = toItem st' params lot /\
        Item.address item = EmptyString /\
        Item.telephone item = EmptyString /\
        Item.imageURL item = EmptyString /\
        Item.location item = {| latitude := 0; longitude := 0 |} /\
        Item.distance item =
          option_map (fun user => calculateDistance (latitude user)
                                                    (longitude user) 0 0)
                     (Params.location params).
Proof.
  intros H. apply handler_snapshot in H as (params & cache & Hp & Hc & ->).
  exists params, cache. split; [assumption |]. split; [assumption |].
  intros lot Hin Hk Hmeta. exists (toItem st' params lot). split.
  - apply (Permutation_in _ (Permutation_sym (search_permutation _ _ _))).
    apply in_map. apply filter_In. auto.
  - unfold toItem. rewrite Hmeta. simpl.
    repeat split.
Qed.

(** ** Half a coordinate *)

Lemma parse_argument_without_coordinate (w : World) (req : Request) :
  truthy (Query.latitude (query req)) && truthy (Query.longitude (query req))
  = false ->
  parse_argument w (query req) = parse_argument w (query (without_coordinate req))
  /\ Input.location (parse_argument w (query req)) = None.
Proof.
  intros H. unfold parse_argument, without_coordinate. simpl. now rewrite H.
Qed.

(** C10. A request that supplies exactly one of [latitude] and
    [longitude] is answered, and changes the state, exactly as the same
    request with both left out: a validation error it gets names no
    coordinate field, and a success carries no distance in any item and is
    in non-increasing order of available spaces. *)
Theorem handler_half_coordinate (w : World) (req : Request) (st : State) :
  (Query.latitude (query req) = None /\ Query.longitude (query req) <> None) \/
  (Query.latitude (query req) <> None /\ Query.longitude (query req) = None) ->
  handler w req st = handler w (without_coordinate req) st /\
  (forall issues st',
      handler w req st = (Status400 (ZodError issues), st') ->
      ~ In "location.latitude" issues /\ ~ In "location.longitude" issues) /\
  (forall items st',
      handler w req st = (Status200 items, st') ->
      Forall (fun item => Item.distance item = None) items /\
      StronglySorted no_fewer_spaces items).
Proof.
  intros Hhalf.
  assert (Hb : truthy (Query.latitude (query req))
               && truthy (Query.longitude (query req)) = false).
  { destruct Hhalf as [[-> _] | [_ ->]]; [reflexivity | apply andb_false_r]. }
  destruct (parse_argument_without_coordinate w req Hb) as [Harg Hloc].
  pose proof (parse_without_location _ Hloc) as Hparse.
  split; [| split].
  - unfold handler. now rewrite Harg.
  - intros issues st' H. apply handler_400_ZodError in H.
    rewrite H in Hparse.
    split; intros Hin; apply Hparse in Hin; simpl in Hin;
      intuition discriminate.
  - intros items st' H.
    apply handler_snapshot in H as (params & cache & Hp & Hc & ->).
    rewrite Hp in Hparse. split.
    + apply List.Forall_forall. intros item Hin.
      apply (Permutation_in _ (search_permutation _ _ _)) in Hin.
      apply in_map_iff in Hin as (lot & <- & _). simpl. now rewrite Hparse.
    + now apply search_sorted_by_spaces.
Qed.

(** ** Order of validation and fetch *)

(** On a query the schema rejects, the handler has already run
    [getAvailableCarParks] on the unvalidated city, and the state it
    leaves is the state that call left. *)
Lemma handler_invalid_query (w : World) (req : Request) (st : State)
    (e : Error) :
  method req = "GET" ->
  ParkingSearchSchema_parse (parse_argument w (query req)) = inl e ->
  handler w req st =
  match getAvailableCarParks w (Query.city (query req)) st with
  | (Return _, st1) => (Status400 e, st1)
  | (Throw e', st1) => (Status400 e', st1)
  end.
Proof.
  intros Hm Hp. unfold handler. rewrite Hm. simpl. run.
  destruct (getAvailableCarParks w (Query.city (query req)) st)
    as [[data | e'] st1]; [| reflexivity].
  rewrite Hp. reflexivity.
Qed.

(** C1. On a cold cache, [GET ?city=Mars] sends the credential request
    and the availability request for Mars, stores the token, and is
    answered with the error of the failed fetch, not with a validation
    error; [GET ?city=Taipei&parkingType=Bus] is answered with the
    validation error only after the Taipei snapshot was fetched and
    cached. *)
Theorem handler_fetches_before_validating :
  (let (response, st') :=
     handler Example.world
             (Example.get (Some "Mars") None None None None) initial in
   response = Status400 TypeError /\
   trace st' = [TokenExchange; FetchAvailability "Mars"] /\
   accessToken initial = None /\ accessToken st' = Some "token") /\
  (let (response, st') :=
     handler Example.world
             (Example.get (Some "Taipei") (Some "Bus") None None None)
             initial in
   response = Status400 (ZodError ["parkingType"]) /\
   trace st' = [TokenExchange; FetchAvailability "Taipei"] /\
   carParkCache initial !! Some "Taipei" = None /\
   carParkCache st' !! Some "Taipei" =
   Some {| Cache.expiredAt := 61000;
           Cache.values := Example.lots |}).
Proof. vm_compute. repeat split. Qed.

(** ** Marking a city as loaded *)

(** The city is marked as soon as the body of the feed has arrived,
    before the loop runs: from then on the loader does nothing for it. *)
Lemma loadMockCarParkData_marks_on_arrival (w : World) (city : City)
    (st st' : State) (r : Outcome unit) (tok : string) (st1 : State)
    (body : option (list Upstream.CarPark)) :
  City_value city ∉ loadedCities st ->
  getAccessToken w st = (Return tok, st1) ->
  carpark_endpoint w (length (trace st1)) (City_value city) = Some body ->
  loadMockCarParkData w city st = (r, st') ->
  City_value city ∈ loadedCities st' /\
  loadMockCarParkData w city st' = (Return tt, st').
Proof.
  intros Hin Ht Hbody Hrun.
  rewrite (loadMockCarParkData_unloaded w city st Hin), Ht, Hbody in Hrun.
  assert (Hmarked : City_value city ∈ loadedCities st').
  { destruct body as [carParks |].
    - apply for_of_storeCarPark in Hrun as (_ & _ & -> & _). simpl.
      set_solver.
    - injection Hrun as _ <-. simpl. set_solver. }
  split; [assumption | now apply loadMockCarParkData_loaded].
Qed.

(** C6. When the metadata feed answers Taipei with a body that has no
    [CarParks], the loader throws with Taipei already in [loadedCities]
    and nothing in [carParkData], and the next call for Taipei returns at
    once without a request; when the second record of the feed is
    malformed, it throws with Taipei marked and only the first record
    stored. *)
Theorem loadMockCarParkData_marks_before_populating :
  (let (r, st') :=
     loadMockCarParkData Example.world_without_CarParks Taipei initial in
   r = Throw TypeError /\
   "Taipei" ∈ loadedCities st' /\
   carParkData st' = ∅ /\
   loadMockCarParkData Example.world_without_CarParks Taipei st'
   = (Return tt, st')) /\
  (let (r, st') :=
     loadMockCarParkData Example.world_malformed_CarPark Taipei initial in
   r = Throw TypeError /\
   "Taipei" ∈ loadedCities st' /\
   carParkData st' !! "Taipei-A" = carParkEntry Example.carParkA /\
   carParkData st' !! "Taipei-M" = None /\
   loadMockCarParkData Example.world_malformed_CarPark Taipei st'
   = (Return tt, st')).
Proof.
  split.
  - destruct (loadMockCarParkData Example.world_without_CarParks Taipei
                initial) as [r st'] eqn:Hrun.
    destruct (loadMockCarParkData_marks_on_arrival
                Example.world_without_CarParks Taipei initial st' r
                "token" (getAccessToken Example.world_without_CarParks
                           initial).2 None)
      as [Hin Hagain]; try assumption; try reflexivity.
    { set_solver. }
    vm_compute in Hrun. injection Hrun as <- <-.
    repeat split; try assumption.
  - destruct (loadMockCarParkData Example.world_malformed_CarPark Taipei
                initial) as [r st'] eqn:Hrun.
    destruct (loadMockCarParkData_marks_on_arrival
                Example.world_malformed_CarPark Taipei initial st' r
                "token" (getAccessToken Example.world_malformed_CarPark
                           initial).2
                (Some [Example.carParkA; Example.carParkMalformed]))
      as [Hin Hagain]; try assumption; try reflexivity.
    { set_solver. }
    vm_compute in Hrun. injection Hrun as <- <-.
    repeat split; try assumption.
Qed.

(** ** Defaults of the optional fields *)

(** C8, as stated, fails: the record B of the example feed has no
    [ImageURLs] and no [Telephone], and the entry the loader stores for
    it has no [imageURL] at all, rather than the empty string, and has
    the emergency number as its telephone. *)
Lemma loadMockCarParkData_image_not_defaulted :
  exists entry,
    carParkData (loadMockCarParkData Example.world Taipei initial).2
      !! carParkKey Taipei "B" = Some entry /\
    Upstream.ImageURLs Example.carParkB = None /\
    Meta.imageURL entry <> Some EmptyString /\
    Upstream.Telephone Example.carParkB = None /\
    Meta.telephone entry <> EmptyString.
Proof.
  eexists. split; [vm_compute; reflexivity |].
  simpl. repeat split; discriminate.
Qed.

(** C8, amended. Of a run of the loader that receives the feed:
    a record of the feed that the loop reaches, all records up to it
    having a name and a position, has its entry in the metadata map at
    the end, under its city and lot id, unless a later record has the
    same id; and an entry of the map that was not there before is the
    entry of a record of the feed.  In both cases the entry's
    description is the empty string when the record has no
    [Description]; its telephone is the record's [EmergencyPhone] when
    the record has no [Telephone], and the empty string when it has
    neither; and it has no image URL when the record has no
    [ImageURLs], the empty string being put in its place in the item
    that the handler builds from the entry. *)
Theorem loadMockCarParkData_optional_fields (w : World) (city : City)
    (st st1 st' : State) (tok : string) (r : Outcome unit)
    (carParks : list Upstream.CarPark) :
  City_value city ∉ loadedCities st ->
  getAccessToken w st = (Return tok, st1) ->
  carpark_endpoint w (length (trace st1)) (City_value city)
  = Some (Some carParks) ->
  loadMockCarParkData w city st = (r, st') ->
  (forall before carPark after,
      carParks = before ++ carPark :: after ->
      Forall (fun c => is_Some (carParkEntry c)) (before ++ [carPark]) ->
      Forall (fun c => Upstream.CarParkID c <> Upstream.CarParkID carPark)
             after ->
      exists entry,
        getMockCarParkData st' city (Upstream.CarParkID carPark) = Some entry /\
        carParkEntry carPark = Some entry /\
        (Upstream.Description carPark = None ->
         Meta.description entry = EmptyString) /\
        (Upstream.Telephone carPark = None ->
         Meta.telephone entry =
         or_str (Upstream.EmergencyPhone carPark) EmptyString) /\
        (Upstream.Telephone carPark = None ->
         Upstream.EmergencyPhone carPark = None ->
         Meta.telephone entry = EmptyString) /\
        (Upstream.ImageURLs carPark = None ->
         Meta.imageURL entry = None /\
         forall params lot,
           Params.city params = city ->
           CarParkID lot = Upstream.CarParkID carPark ->
           Item.imageURL (toItem st' params lot) = EmptyString)) /\
  (forall key entry,
      carParkData st' !! key = Some entry ->
      carParkData st !! key = Some entry \/
      exists carPark,
        In carPark carParks /\
        key = carParkKey city (Upstream.CarParkID carPark) /\
        carParkEntry carPark = Some entry /\
        (Upstream.Description carPark = None ->
         Meta.description entry = EmptyString) /\
        (Upstream.Telephone carPark = None ->
         Meta.telephone entry =
         or_str (Upstream.EmergencyPhone carPark) EmptyString) /\
        (Upstream.Telephone carPark = None ->
         Upstream.EmergencyPhone carPark = None ->
         Meta.telephone entry = EmptyString) /\
        (Upstream.ImageURLs carPark = None ->
         Meta.imageURL entry = None /\
         forall params lot,
           getMockCarParkData st' (Params.city params) (CarParkID lot)
           = Some entry ->
           Item.imageURL (toItem st' params lot) = EmptyString)).
Proof.
  intros Hin Ht Hfeed Hrun.
  rewrite (loadMockCarParkData_unloaded w city st Hin), Ht, Hfeed in Hrun.
  cbv zeta in Hrun. split.
  - intros before carPark after -> Hreached Hafter.
    apply Forall_app in Hreached as [Hbefore Hrecord].
    apply Forall_cons_iff in Hrecord as [[entry Hentry] _].
    pose proof (for_of_storeCarPark_stored city before after carPark entry
                  Hbefore Hentry Hafter _ _ _ Hrun) as Hstored.
    pose proof (carParkEntry_fields carPark entry Hentry) as (Hd & Hp & Hi).
    exists entry. split; [exact Hstored |]. split; [exact Hentry |].
    split; [| split; [| split]].
    + intros Hnone. now rewrite Hd, Hnone.
    + intros Hnone. now rewrite Hp, Hnone.
    + intros Hnone Hnone'. now rewrite Hp, Hnone, Hnone'.
    + intros Hnone. rewrite Hnone in Hi. simpl in Hi. split; [assumption |].
      intros params lot Hcity Hid. unfold toItem, getMockCarParkData.
      rewrite Hcity, Hid. unfold getMockCarParkData in Hstored.
      rewrite Hstored. simpl. now rewrite Hi.
  - intros key entry Hkey.
    apply getAccessToken_frame in Ht as (_ & Hdata & _).
    apply for_of_storeCarPark in Hrun as (_ & _ & _ & _ & _ & _ & Hfrom).
    apply Hfrom in Hkey as [Hold | (carPark & Hfed & -> & Hentry)].
    + left. simpl in Hold. congruence.
    + right. exists carPark.
      pose proof (carParkEntry_fields carPark entry Hentry) as (Hd & Hp & Hi).
      split; [assumption |]. split; [reflexivity |]. split; [assumption |].
      split; [| split; [| split]].
      * intros Hnone. now rewrite Hd, Hnone.
      * intros Hnone. now rewrite Hp, Hnone.
      * intros Hnone Hnone'. now rewrite Hp, Hnone, Hnone'.
      * intros Hnone. rewrite Hnone in Hi. simpl in Hi. split; [assumption |].
        intros params lot Hmeta. unfold toItem. rewrite Hmeta. simpl.
        now rewrite Hi.
Qed.

(** ** The example upstream *)

Lemma number_in_range (lo hi x : R) (path : string) :
  (lo <= x <= hi)%R -> z.number lo hi path (Some x) = inr x.
Proof.
  intros [H1 H2]. unfold z.number.
  destruct (Rle_dec lo x); [| contradiction].
  destruct (Rle_dec x hi); [reflexivity | contradiction].
Defined.

(** The converse of [handler_200]. *)
Lemma handler_success (w : World) (req : Request) (st st1 st' : State)
    (data : list Lot) (params : Params.t) :
  method req = "GET" ->
  getAvailableCarParks w (Query.city (query req)) st = (Return data, st1) ->
  ParkingSearchSchema_parse (parse_argument w (query req)) = inr params ->
  loadMockCarParkData w (Params.city params) st1 = (Return tt, st') ->
  handler w req st = (Status200 (search st' params data), st').
Proof.
  intros Hm Ha Hp Hl. unfold handler. rewrite Hm. simpl. run.
  rewrite Ha, Hp. run. rewrite Hl. reflexivity.
Defined.

Lemma search_many_parse :
  ParkingSearchSchema_parse
    (parse_argument Example.world (query Example.search_many))
  = inr Example.many_params.
Proof. reflexivity. Defined.

Lemma search_near_parse :
  ParkingSearchSchema_parse
    (parse_argument Example.world (query Example.search_near))
  = inr Example.near_params.
Proof.
  unfold ParkingSearchSchema_parse, parse_argument. cbn -[z.number].
  unfold LocationSchema. cbn -[z.number].
  rewrite !number_in_range by lra. reflexivity.
Defined.

Lemma warm_snapshot :
  carParkCache Example.warm !! Some "Taipei"
  = Some {| Cache.expiredAt := 61000; Cache.values := Example.lots |}.
Proof. vm_compute. reflexivity. Defined.

Lemma search_many_run :
  handler Example.world Example.search_many initial
  = (Status200 (search Example.warm Example.many_params Example.lots),
     Example.warm).
Proof.
  apply handler_success
    with (st1 := (getAvailableCarParks Example.world (Some "Taipei")
                    initial).2).
  - reflexivity.
  - vm_compute. reflexivity.
  - apply search_many_parse.
  - vm_compute. reflexivity.
Defined.

Lemma search_near_run :
  handler Example.world Example.search_near initial
  = (Status200 (search Example.warm Example.near_params Example.lots),
     Example.warm).
Proof.
  apply handler_success
    with (st1 := (getAvailableCarParks Example.world (Some "Taipei")
                    initial).2).
  - reflexivity.
  - vm_compute. reflexivity.
  - apply search_near_parse.
  - vm_compute. reflexivity.
Defined.

(** The search for cars of tier Many keeps A (6 free) and C (9 free),
    and drops B (2 free) and D (no car entry). *)
Lemma handler_filter_witness :
  handler Example.world Example.search_many initial
  = (Status200 (search Example.warm Example.many_params Example.lots),
     Example.warm) /\
  Permutation (search Example.warm Example.many_params Example.lots)
              (map (toItem Example.warm Example.many_params)
                   [Example.lotA; Example.lotC]).
Proof.
  split; [exact search_many_run |].
  destruct (handler_filter _ _ _ _ _ search_many_run)
    as (params & cache & Hp & Hc & Hperm & _).
  rewrite search_many_parse in Hp. injection Hp as <-.
  change (carParkCache Example.warm !! Some "Taipei" = Some cache) in Hc.
  rewrite warm_snapshot in Hc. injection Hc as <-.
  exact Hperm.
Defined.

(** The metadata feed has no record for lot C: the search from
    (25, 121) returns it with the placeholders. *)
Lemma handler_missing_metadata_witness :
  handler Example.world Example.search_near initial
  = (Status200 (search Example.warm Example.near_params Example.lots),
     Example.warm) /\
  exists item,
    In item (search Example.warm Example.near_params Example.lots) /\
    item = toItem Example.warm Example.near_params Example.lotC /\
    Item.address item = EmptyString /\
    Item.telephone item = EmptyString /\
    Item.imageURL item = EmptyString /\
    Item.location item = {| latitude := 0; longitude := 0 |} /\
    Item.distance item = Some (calculateDistance 25 121 0 0).
Proof.
  split; [exact search_near_run |].
  destruct (handler_missing_metadata _ _ _ _ _ search_near_run)
    as (params & cache & Hp & Hc & Hlot).
  rewrite search_near_parse in Hp. injection Hp as <-.
  change (carParkCache Example.warm !! Some "Taipei" = Some cache) in Hc.
  rewrite warm_snapshot in Hc. injection Hc as <-.
  apply (Hlot Example.lotC).
  - simpl. tauto.
  - reflexivity.
  - vm_compute. reflexivity.
Defined.

(** The warm snapshot is served two clock readings after it was stored;
    a hundred readings later it has expired and is fetched again, with
    the token still valid. *)
Lemma getAvailableCarParks_ttl_witness :
  (Date_now Example.world (ticks Example.warm) < 61000 /\
   getAvailableCarParks Example.world (Some "Taipei") Example.warm
   = (Return Example.lots, tick Example.warm)) /\
  (61000 <= Date_now Example.world (ticks (Example.later 100 Example.warm)) /\
   exists st',
     getAvailableCarParks Example.world (Some "Taipei")
                          (Example.later 100 Example.warm)
     = (Return Example.lots, st') /\
     trace st' = trace Example.warm ++ [FetchAvailability "Taipei"] /\
     carParkCache st' !! Some "Taipei"
     = Some {| Cache.expiredAt := 165000; Cache.values := Example.lots |}).
Proof.
  split.
  - split; [vm_compute; reflexivity |].
    destruct (getAvailableCarParks_ttl Example.world (Some "Taipei")
                Example.warm) as [Hhit _].
    apply (Hhit {| Cache.expiredAt := 61000; Cache.values := Example.lots |}).
    + exact warm_snapshot.
    + vm_compute. reflexivity.
  - split; [vm_compute; discriminate |].
    destruct (getAvailableCarParks_ttl Example.world (Some "Taipei")
                (Example.later 100 Example.warm)) as [_ Hmiss].
    destruct Hmiss as [Hfresh Hsucceeds].
    { intros cache Hc.
      change (carParkCache Example.warm !! Some "Taipei" = Some cache) in Hc.
      rewrite warm_snapshot in Hc. injection Hc as <-.
      vm_compute. discriminate. }
    destruct (Hsucceeds "token"
                (tick (tick (Example.later 100 Example.warm))) Example.lots)
      as [st' Hrun].
    { vm_compute. reflexivity. }
    { reflexivity. }
    exists st'. split; [exact Hrun |].
    destruct (Hfresh _ _ Hrun) as (pre & Htrace & _ & Hcache).
    vm_compute in Hrun. injection Hrun as <-.
    split; [vm_compute; reflexivity | vm_compute; reflexivity].
Defined.

(** The first call exchanges the credentials and stores the token for
    3600 s less the margin; a call on the warm state reuses it. *)
Lemma getAccessToken_reuse_and_renewal_witness :
  (truthy (accessToken initial) = false /\
   exists st',
     getAccessToken Example.world initial = (Return "token", st') /\
     expiredAt st' = 3540000 /\ accessToken st' = Some "token") /\
  (accessToken Example.warm = Some "token" /\
   Date_now Example.world (ticks Example.warm) < expiredAt Example.warm /\
   getAccessToken Example.world Example.warm
   = (Return "token", tick Example.warm)).
Proof.
  split.
  - split; [reflexivity |].
    destruct (getAccessToken_reuse_and_renewal Example.world initial)
      as (_ & Hrenew & _).
    destruct Hrenew as (_ & Hstored & _); [left; reflexivity |].
    apply (Hstored Example.token "token");
      [reflexivity | reflexivity | discriminate].
  - split; [vm_compute; reflexivity |].
    split; [vm_compute; reflexivity |].
    destruct (getAccessToken_reuse_and_renewal Example.world Example.warm)
      as (Hreuse & _).
    apply Hreuse; [vm_compute; reflexivity | discriminate |
                   vm_compute; reflexivity].
Defined.

Lemma fetched_loads :
  loadMockCarParkData Example.world Taipei Scenario.fetched
  = (Return tt, Example.warm).
Proof. vm_compute. reflexivity. Defined.

Lemma fetched_unloaded : "Taipei" ∉ loadedCities Scenario.fetched.
Proof.
  assert (H : loadedCities Scenario.fetched = ∅) by (vm_compute; reflexivity).
  rewrite H. apply not_elem_of_empty.
Defined.

(** Record B of the example feed, the last of the two, has no
    description, no telephone and no image: its entry has the empty
    description, the emergency number 119 and no image URL, and the
    item of lot B carries the empty string as its image URL. *)
Lemma loadMockCarParkData_optional_fields_witness :
  exists entry,
    getMockCarParkData Example.warm Taipei "B" = Some entry /\
    carParkEntry Example.carParkB = Some entry /\
    Meta.description entry = EmptyString /\
    Meta.telephone entry = "119" /\
    Meta.imageURL entry = None /\
    Item.imageURL (toItem Example.warm Example.many_params Example.lotB)
    = EmptyString.
Proof.
  destruct (loadMockCarParkData_optional_fields
              Example.world Taipei Scenario.fetched
              (getAccessToken Example.world Scenario.fetched).2 Example.warm
              "token" (Return tt) [Example.carParkA; Example.carParkB])
    as [Hstored _].
  - exact fetched_unloaded.
  - vm_compute. reflexivity.
  - reflexivity.
  - exact fetched_loads.
  - destruct (Hstored [Example.carParkA] Example.carParkB [] eq_refl)
      as (entry & Hl & He & Hd & Ht & _ & Hi).
    + repeat constructor; eexists; reflexivity.
    + constructor.
    + destruct (Hi eq_refl) as [Hnone Hitem].
      exists entry. split; [exact Hl |]. split; [exact He |].
      split; [exact (Hd eq_refl) |]. split; [exact (Ht eq_refl) |].
      split; [exact Hnone |].
      exact (Hitem Example.many_params Example.lotB eq_refl eq_refl).
Defined.

(** A latitude without a longitude. *)
Lemma handler_half_coordinate_witness :
  (Query.latitude (query Example.search_half) <> None /\
   Query.longitude (query Example.search_half) = None) /\
  handler Example.world Example.search_half initial
  = handler Example.world (without_coordinate Example.search_half) initial /\
  (forall issues st',
      handler Example.world Example.search_half initial
      = (Status400 (ZodError issues), st') ->
      ~ In "location.latitude" issues /\ ~ In "location.longitude" issues) /\
  (forall items st',
      handler Example.world Example.search_half initial
      = (Status200 items, st') ->
      Forall (fun item => Item.distance item = None) items /\
      StronglySorted no_fewer_spaces items).
Proof.
  assert (H : Query.latitude (query Example.search_half) <> None /\
              Query.longitude (query Example.search_half) = None)
    by (split; [discriminate | reflexivity]).
  split; [exact H |].
  apply (handler_half_coordinate Example.world Example.search_half initial).
  right. exact H.
Defined.

(** * Further properties *)

(** ** The distance as a formula *)

Section DistanceFormula.

Local Open Scope R_scope.

Lemma atan2_asin (a : R) :
  0 <= a <= 1 -> Math.atan2 (sqrt a) (sqrt (1 - a)) = asin (sqrt a).
Proof.
  intros [H0 H1]. unfold Math.atan2.
  destruct (Req_dec a 1) as [-> | Hne].
  - replace (1 - 1) with 0 by ring. rewrite sqrt_0, sqrt_1, asin_1.
    destruct (Rlt_dec 0 0) as [H | _]; [lra |].
    destruct (Rlt_dec 0 1) as [_ | H]; [reflexivity | lra].
  - assert (Hpos : 0 < sqrt (1 - a)) by (apply sqrt_lt_R0; lra).
    destruct (Rlt_dec 0 (sqrt (1 - a))) as [_ | H]; [| contradiction].
    assert (Hs : 0 <= sqrt a < 1).
    { split; [apply sqrt_pos |].
      rewrite <- sqrt_1. apply sqrt_lt_1; lra. }
    rewrite asin_atan by lra.
    now rewrite Rsqr_sqrt.
Qed.

Lemma sqrt_square_abs (x : R) : sqrt (x * x) = Rabs x.
Proof. apply sqrt_Rsqr_abs. Qed.

(** X3. Between two points of one longitude the distance is the length
    of the meridian arc: the Earth radius times the difference of the
    latitudes in radians. *)
Theorem calculateDistance_meridian (lat1 lat2 lon : R) :
  -90 <= lat1 <= 90 -> -90 <= lat2 <= 90 ->
  calculateDistance lat1 lon lat2 lon = 6371 * (Rabs (lat2 - lat1) * PI / 180).
Proof.
  intros H1 H2. pose proof PI_RGT_0 as Hpi.
  pose proof (haversine_range lat1 lon lat2 lon H1 H2) as Hrange.
  rewrite calculateDistance_haversine, (atan2_asin _ Hrange).
  set (h := (lat2 - lat1) * PI / 180 / 2).
  assert (Hh : - (PI / 2) <= h <= PI / 2) by (unfold h; split; nra).
  assert (Ha : haversine lat1 lon lat2 lon = sin h * sin h).
  { unfold haversine. fold h.
    replace ((lon - lon) * PI / 180 / 2) with 0 by (unfold Rdiv; ring).
    rewrite sin_0. ring. }
  rewrite Ha, sqrt_square_abs.
  assert (Habs : Rabs (sin h) = sin (Rabs h)).
  { unfold Rabs at 2. destruct (Rcase_abs h) as [Hneg | Hpos].
    - rewrite sin_neg. apply Rabs_left. apply sin_lt_0_var; lra.
    - apply Rabs_right. apply Rle_ge. apply sin_ge_0; lra. }
  rewrite Habs, asin_sin.
  - unfold h. replace ((lat2 - lat1) * PI / 180 / 2)
      with ((lat2 - lat1) * (PI / 360)) by (unfold Rdiv; field).
    rewrite Rabs_mult, (Rabs_right (PI / 360)) by lra. field.
  - pose proof (Rabs_pos h). split; [lra |].
    apply Rabs_le. lra.
Qed.

End DistanceFormula.

(** ** Footprint of the components *)

Lemma only_adds_refl (allowed : list Event) (st : State) :
  only_adds 0 allowed st st.
Proof.
  unfold only_adds. split; [| repeat split; auto].
  exists []. rewrite app_nil_r. repeat split; [apply incl_nil_l | simpl; lia].
Qed.

Lemma only_adds_trans (n m : nat) (allowed : list Event) (st1 st2 st3 : State) :
  only_adds n allowed st1 st2 -> only_adds m allowed st2 st3 ->
  only_adds (n + m) allowed st1 st3.
Proof.
  intros ((new1 & Ht1 & Hi1 & Hn1) & Hl1 & Hd1 & Hc1 & Ha1 & Hk1)
         ((new2 & Ht2 & Hi2 & Hn2) & Hl2 & Hd2 & Hc2 & Ha2 & Hk2).
  split; [| repeat split; auto; try lia; set_solver].
  exists (new1 ++ new2). rewrite Ht2, Ht1, <- app_assoc.
  repeat split; [now apply incl_app | rewrite length_app; lia].
Qed.

Lemma only_adds_weaken (n m : nat) (allowed allowed' : list Event)
    (st st' : State) :
  (n <= m)%nat -> incl allowed allowed' ->
  only_adds n allowed st st' -> only_adds m allowed' st st'.
Proof.
  intros Hn Hi ((new & Ht & Hin & Hlen) & H). split; [| exact H].
  exists new. repeat split; [assumption | | lia].
  intros e He. auto.
Qed.

Lemma only_adds_tick (allowed : list Event) (st : State) :
  only_adds 0 allowed st (tick st).
Proof.
  unfold only_adds. simpl. split; [| repeat split; auto].
  exists []. rewrite app_nil_r. repeat split; [apply incl_nil_l | simpl; lia].
Qed.

Lemma only_adds_send (e : Event) (st : State) :
  only_adds 1 [e] st (send e st).
Proof.
  unfold only_adds. simpl. split; [| repeat split; auto].
  exists [e]. repeat split; [apply incl_refl | simpl; lia].
Qed.

Lemma getAccessToken_only_adds (w : World) (st st' : State)
    (r : Outcome string) :
  getAccessToken w st = (r, st') -> only_adds 1 [TokenExchange] st st'.
Proof.
  intros Hrun.
  destruct (getAccessToken_cases w st) as [(tok & Ht & Hne & Hlt) | Hc].
  - rewrite (getAccessToken_cached w st tok Ht Hne Hlt) in Hrun.
    injection Hrun as _ <-.
    eapply only_adds_weaken; [| apply incl_refl | apply only_adds_tick]. lia.
  - rewrite (getAccessToken_renew w st Hc) in Hrun.
    assert (Hsent : only_adds 1 [TokenExchange] st
                              (send TokenExchange (tick st))).
    { apply (only_adds_trans 0 1 _ st (tick st));
        [apply only_adds_tick | apply only_adds_send]. }
    destruct (token_endpoint w (length (trace st))) as [data |];
      [| now injection Hrun as _ <-].
    destruct (truthy (Upstream.access_token data)) eqn:Hd;
      injection Hrun as _ <-; [| assumption].
    destruct Hsent as (Htr & Hl & Hdt & Hcc & _ & Hk).
    repeat split; auto. simpl. intros _.
    apply truthy_inv in Hd as (s & -> & _). discriminate.
Qed.

Lemma getAvailableCarParks_only_adds (w : World) (city : option string)
    (st st' : State) (r : Outcome (list Lot)) :
  getAvailableCarParks w city st = (r, st') ->
  only_adds 2 [TokenExchange; FetchAvailability (url_city city)] st st'.
Proof.
  set (allowed := [TokenExchange; FetchAvailability (url_city city)]).
  intros Hrun.
  destruct (getAvailableCarParks_cases w city st) as [(cache & Hc & Hlt) | Hs].
  - rewrite (getAvailableCarParks_hit w city st cache Hc Hlt) in Hrun.
    injection Hrun as _ <-.
    eapply only_adds_weaken; [| apply incl_refl | apply only_adds_tick]. lia.
  - rewrite (getAvailableCarParks_miss w city st Hs) in Hrun.
    assert (Hchecked :
              only_adds 0 allowed st
                (match carParkCache st !! city with
                 | Some _ => tick st | None => st end))
      by (destruct (carParkCache st !! city);
          [apply only_adds_tick | apply only_adds_refl]).
    destruct (getAccessToken w _) as [[tok | e] st1] eqn:Ht;
      apply getAccessToken_only_adds in Ht;
      apply (only_adds_weaken 1 1 _ allowed) in Ht;
      try lia; try (intros ev [<- | []]; simpl; auto).
    + pose proof (only_adds_trans _ _ _ _ _ _ Hchecked Ht) as H1.
      assert (Hsent : only_adds 2 allowed st
                        (send (FetchAvailability (url_city city)) st1)).
      { apply (only_adds_trans 1 1 _ st st1); [exact H1 |].
        eapply only_adds_weaken; [| | apply only_adds_send]; [lia |].
        intros ev [<- | []]. simpl. auto. }
      assert (Hticked : only_adds 2 allowed st
                          (tick (send (FetchAvailability (url_city city))
                                      st1))).
      { apply (only_adds_trans 2 0 _ st _ _ Hsent). apply only_adds_tick. }
      destruct (availability_endpoint w (length (trace st1)) (url_city city))
        as [[lots |] |]; injection Hrun as _ <-; try assumption.
      destruct Hticked as (Htr & Hl & Hd & Hcc & Ha & Hk).
      repeat split; auto. simpl. intros k Hk'.
      destruct (decide (city = k)) as [<- | Hne];
        [rewrite lookup_insert_eq; eauto |].
      rewrite lookup_insert_ne by assumption. auto.
    + injection Hrun as _ <-.
      eapply only_adds_weaken;
        [| apply incl_refl | apply (only_adds_trans _ _ _ _ _ _ Hchecked Ht)].
      lia.
Qed.

Lemma for_of_storeCarPark_only_adds (city : City)
    (carParks : list Upstream.CarPark) (st st' : State) (r : Outcome unit)
    (allowed : list Event) :
  for_of carParks (storeCarPark city) st = (r, st') ->
  only_adds 0 allowed st st'.
Proof.
  revert st. induction carParks as [| carPark carParks IH]; intros st; simpl.
  - run. intros [= <- <-]. apply only_adds_refl.
  - unfold storeCarPark at 1. run.
    destruct (carParkEntry carPark) as [entry |].
    + intros Hrest. apply IH in Hrest.
      apply (only_adds_trans 0 0 _ st
               (carParkData_set
                  (carParkKey city (Upstream.CarParkID carPark)) entry st));
        [| exact Hrest].
      unfold only_adds. simpl. split; [| repeat split; auto].
      * exists []. rewrite app_nil_r.
        repeat split; [apply incl_nil_l | simpl; lia].
      * intros k Hk.
        destruct (decide (carParkKey city (Upstream.CarParkID carPark) = k))
          as [<- | Hne]; [rewrite lookup_insert_eq; eauto |].
        now rewrite lookup_insert_ne.
    + intros [= <- <-]. apply only_adds_refl.
Qed.

Lemma loadMockCarParkData_only_adds (w : World) (city : City)
    (st st' : State) (r : Outcome unit) :
  loadMockCarParkData w city st = (r, st') ->
  only_adds 2 [TokenExchange; FetchCarParks (City_value city)] st st'.
Proof.
  set (allowed := [TokenExchange; FetchCarParks (City_value city)]).
  intros Hrun.
  destruct (decide (City_value city ∈ loadedCities st)) as [Hin | Hin].
  - rewrite (loadMockCarParkData_loaded w city st Hin) in Hrun.
    injection Hrun as _ <-.
    eapply only_adds_weaken; [| apply incl_refl | apply only_adds_refl]. lia.
  - rewrite (loadMockCarParkData_unloaded w city st Hin) in Hrun.
    destruct (getAccessToken w st) as [[tok | e] st1] eqn:Ht;
      apply getAccessToken_only_adds in Ht;
      apply (only_adds_weaken 1 1 _ allowed) in Ht;
      try lia; try (intros ev [<- | []]; simpl; auto).
    + assert (Hsent : only_adds 2 allowed st
                        (send (FetchCarParks (City_value city)) st1)).
      { apply (only_adds_trans 1 1 _ st st1); [exact Ht |].
        eapply only_adds_weaken; [| | apply only_adds_send]; [lia |].
        intros ev [<- | []]. simpl. auto. }
      assert (Hmarked : only_adds 2 allowed st
                          (loadedCities_add (City_value city)
                             (send (FetchCarParks (City_value city)) st1))).
      { destruct Hsent as (Htr & Hl & Hd & Hcc & Ha & Hk).
        repeat split; auto. simpl.
        etrans; [exact Hl | apply union_subseteq_r]. }
      cbv zeta in Hrun.
      destruct (carpark_endpoint w (length (trace st1)) (City_value city))
        as [[carParks |] |]; try (now injection Hrun as _ <-).
      apply (for_of_storeCarPark_only_adds _ _ _ _ _ allowed) in Hrun.
      apply (only_adds_trans 2 0 _ _ _ _ Hmarked Hrun).
    + injection Hrun as _ <-.
      eapply only_adds_weaken; [| apply incl_refl | exact Ht]. lia.
Qed.

(** ** What a search touches *)

Lemma parse_city (i : Input.t) (params : Params.t) :
  ParkingSearchSchema_parse i = inr params ->
  Input.city i = Some (City_value (Params.city params)).
Proof.
  unfold ParkingSearchSchema_parse, z.nativeEnum at 1.
  destruct (Input.city i) as [s |]; [| discriminate].
  destruct (find _ City_all) as [c |] eqn:Hf; [| discriminate].
  apply find_some in Hf as [_ Hc]. apply String.eqb_eq in Hc. subst s.
  destruct (z.default _ _ _), (z.default _ _ _), (z.optional _ _);
    try discriminate.
  now intros [= <-].
Qed.

Lemma getAvailableCarParks_other_cities (w : World) (city other : option string)
    (st st' : State) (r : Outcome (list Lot)) :
  getAvailableCarParks w city st = (r, st') -> other <> city ->
  carParkCache st' !! other = carParkCache st !! other.
Proof.
  intros Hrun Hne.
  destruct (getAvailableCarParks_cases w city st) as [(cache & Hc & Hlt) | Hs].
  - rewrite (getAvailableCarParks_hit w city st cache Hc Hlt) in Hrun.
    now injection Hrun as _ <-.
  - rewrite (getAvailableCarParks_miss w city st Hs) in Hrun.
    destruct (getAccessToken w _) as [[tok | e] st1] eqn:Ht;
      apply getAccessToken_frame in Ht as (_ & _ & Hcc & _).
    + destruct (availability_endpoint w (length (trace st1)) (url_city city))
        as [[lots |] |]; injection Hrun as _ <-; simpl; rewrite Hcc;
        try rewrite lookup_insert_ne by congruence;
        destruct (carParkCache st !! city); reflexivity.
    + injection Hrun as _ <-. rewrite Hcc.
      destruct (carParkCache st !! city); reflexivity.
Qed.

Lemma getAvailableCarParks_metadata (w : World) (city : option string)
    (st st' : State) (r : Outcome (list Lot)) :
  getAvailableCarParks w city st = (r, st') ->
  loadedCities st' = loadedCities st /\ carParkData st' = carParkData st.
Proof.
  intros Hrun.
  destruct (getAvailableCarParks_cases w city st) as [(cache & Hc & Hlt) | Hs].
  - rewrite (getAvailableCarParks_hit w city st cache Hc Hlt) in Hrun.
    now injection Hrun as _ <-.
  - rewrite (getAvailableCarParks_miss w city st Hs) in Hrun.
    destruct (getAccessToken w _) as [[tok | e] st1] eqn:Ht;
      apply getAccessToken_frame in Ht as (Hl & Hd & _).
    + destruct (availability_endpoint w (length (trace st1)) (url_city city))
        as [[lots |] |]; injection Hrun as _ <-; simpl; rewrite Hl, Hd;
        destruct (carParkCache st !! city); auto.
    + injection Hrun as _ <-. rewrite Hl, Hd.
      destruct (carParkCache st !! city); auto.
Qed.

Lemma for_of_storeCarPark_other_keys (city : City)
    (carParks : list Upstream.CarPark) (key : string) :
  (forall id, key <> carParkKey city id) ->
  forall (st st' : State) (r : Outcome unit),
    for_of carParks (storeCarPark city) st = (r, st') ->
    carParkData st' !! key = carParkData st !! key.
Proof.
  intros Hkey. induction carParks as [| carPark carParks IH];
    intros st st' r; simpl.
  - run. now intros [= _ <-].
  - unfold storeCarPark at 1. run.
    destruct (carParkEntry carPark) as [entry |].
    + intros Hrest. apply IH in Hrest. rewrite Hrest. simpl.
      apply lookup_insert_ne. intros Heq. now apply (Hkey _ (eq_sym Heq)).
    + now intros [= _ <-].
Qed.

Lemma loadMockCarParkData_other_keys (w : World) (city : City) (key : string)
    (st st' : State) (r : Outcome unit) :
  loadMockCarParkData w city st = (r, st') ->
  (forall id, key <> carParkKey city id) ->
  carParkData st' !! key = carParkData st !! key.
Proof.
  intros Hrun Hkey.
  destruct (decide (City_value city ∈ loadedCities st)) as [Hin | Hin].
  - rewrite (loadMockCarParkData_loaded w city st Hin) in Hrun.
    now injection Hrun as _ <-.
  - rewrite (loadMockCarParkData_unloaded w city st Hin) in Hrun.
    destruct (getAccessToken w st) as [[tok | e] st1] eqn:Ht;
      apply getAccessToken_frame in Ht as (_ & Hd & _).
    + cbv zeta in Hrun.
      destruct (carpark_endpoint w (length (trace st1)) (City_value city))
        as [[carParks |] |]; try (injection Hrun as _ <-; simpl; congruence).
      apply (for_of_storeCarPark_other_keys city carParks key Hkey) in Hrun.
      rewrite Hrun. simpl. congruence.
    + injection Hrun as _ <-. congruence.
Qed.

Lemma loadMockCarParkData_loaded_cities (w : World) (city : City)
    (st st' : State) (r : Outcome unit) (c : string) :
  loadMockCarParkData w city st = (r, st') ->
  c ∈ loadedCities st' -> c ∈ loadedCities st \/ c = City_value city.
Proof.
  intros Hrun Hc.
  destruct (decide (City_value city ∈ loadedCities st)) as [Hin | Hin].
  - rewrite (loadMockCarParkData_loaded w city st Hin) in Hrun.
    injection Hrun as _ <-. now left.
  - rewrite (loadMockCarParkData_unloaded w city st Hin) in Hrun.
    destruct (getAccessToken w st) as [[tok | e] st1] eqn:Ht;
      apply getAccessToken_frame in Ht as (Hl & _).
    + cbv zeta in Hrun.
      assert (Hadd : forall st2,
                 loadedCities st2
                 = loadedCities (loadedCities_add (City_value city)
                      (send (FetchCarParks (City_value city)) st1)) ->
                 c ∈ loadedCities st2 ->
                 c ∈ loadedCities st \/ c = City_value city).
      { intros st2 -> H. simpl in H. rewrite Hl in H.
        apply elem_of_union in H as [H | H]; [right | now left].
        now apply elem_of_singleton in H. }
      destruct (carpark_endpoint w (length (trace st1)) (City_value city))
        as [[carParks |] |].
      * apply for_of_storeCarPark in Hrun as (_ & _ & Hl' & _).
        now apply (Hadd st').
      * injection Hrun as _ <-. now apply (Hadd _ eq_refl).
      * injection Hrun as _ <-. simpl in Hc. rewrite Hl in Hc. now left.
    + injection Hrun as _ <-. rewrite Hl in Hc. now left.
Qed.

(** The handler, step by step, whatever the outcome. *)
Lemma handler_steps (w : World) (req : Request) (st st' : State)
    (resp : Response) :
  handler w req st = (resp, st') ->
  (resp = Status405 /\ st' = st /\ method req <> "GET") \/
  (method req = "GET" /\
   exists ra st1,
     getAvailableCarParks w (Query.city (query req)) st = (ra, st1) /\
     ((exists e, ra = Throw e /\ st' = st1 /\ resp = Status400 e) \/
      (exists data e,
          ra = Return data /\
          ParkingSearchSchema_parse (parse_argument w (query req)) = inl e /\
          st' = st1 /\ resp = Status400 e) \/
      (exists data params rl,
          ra = Return data /\
          ParkingSearchSchema_parse (parse_argument w (query req))
          = inr params /\
          loadMockCarParkData w (Params.city params) st1 = (rl, st') /\
          match rl with
          | Return _ => resp = Status200 (search st' params data)
          | Throw e => resp = Status400 e
          end))).
Proof.
  unfold handler.
  destruct (String.eqb_spec (method req) "GET") as [Hm | Hm]; simpl.
  - intros Hrun. right. split; [assumption |]. run.
    destruct (getAvailableCarParks w (Query.city (query req)) st)
      as [ra st1]. exists ra, st1. split; [reflexivity |].
    destruct ra as [data | e]; [| injection Hrun as <- <-; left; eauto].
    right.
    destruct (ParkingSearchSchema_parse (parse_argument w (query req)))
      as [e | params]; run;
      [injection Hrun as <- <-; left; exists data, e; auto |].
    right. exists data, params.
    destruct (loadMockCarParkData w (Params.city params) st1)
      as [rl st2]. exists rl.
    destruct rl as [[] | e]; injection Hrun as <- <-; auto.
  - intros [= <- <-]. left. auto.
Qed.

Lemma handler_only_adds (w : World) (req : Request) (st : State) :
  only_adds 4
    [TokenExchange;
     FetchAvailability (url_city (Query.city (query req)));
     FetchCarParks (url_city (Query.city (query req)))]
    st (handler w req st).2.
Proof.
  set (allowed := [TokenExchange;
                   FetchAvailability (url_city (Query.city (query req)));
                   FetchCarParks (url_city (Query.city (query req)))]).
  destruct (handler w req st) as [resp st'] eqn:Hrun. simpl.
  apply handler_steps in Hrun
    as [(_ & -> & _) | (_ & ra & st1 & Ha & Hrest)].
  - eapply only_adds_weaken; [| apply incl_refl | apply only_adds_refl]. lia.
  - apply getAvailableCarParks_only_adds in Ha.
    apply (only_adds_weaken 2 2 _ allowed) in Ha;
      [| lia | intros ev [<- | [<- | []]]; simpl; auto].
    destruct Hrest as [(e & _ & -> & _) | [(data & e & _ & _ & -> & _) |
                       (data & params & rl & _ & Hp & Hl & _)]];
      try (eapply only_adds_weaken; [| apply incl_refl | exact Ha]; lia).
    apply parse_city in Hp. cbn [parse_argument Input.city] in Hp.
    apply loadMockCarParkData_only_adds in Hl.
    apply (only_adds_weaken 2 2 _ allowed) in Hl; [| lia |].
    + apply (only_adds_trans 2 2 _ _ _ _ Ha Hl).
    + unfold allowed. rewrite Hp.
      intros ev [<- | [<- | []]]; simpl; auto.
Qed.

(** X5. A search sends at most four requests, each the credential exchange
    or a fetch of one of the two feeds for the city of the request. *)
Theorem handler_requests (w : World) (req : Request) (st : State) :
  exists new,
    trace (handler w req st).2 = trace st ++ new /\
    (length new <= 4)%nat /\
    forall e, In e new ->
      e = TokenExchange \/
      e = FetchAvailability (url_city (Query.city (query req))) \/
      e = FetchCarParks (url_city (Query.city (query req))).
Proof.
  destruct (handler_only_adds w req st) as ((new & Ht & Hi & Hn) & _).
  exists new. split; [assumption |]. split; [assumption |].
  intros e He. apply Hi in He. simpl in He. intuition auto.
Qed.

(** X6. No search ever drops anything: a loaded city stays loaded, a key
    of the metadata map or of the availability cache stays a key, a
    cached token stays cached, and the clock readings only go on. *)
Theorem handler_never_evicts (w : World) (req : Request) (st : State) :
  loadedCities st ⊆ loadedCities (handler w req st).2 /\
  (forall k, is_Some (carParkData st !! k) ->
             is_Some (carParkData (handler w req st).2 !! k)) /\
  (forall k, is_Some (carParkCache st !! k) ->
             is_Some (carParkCache (handler w req st).2 !! k)) /\
  (accessToken st <> None -> accessToken (handler w req st).2 <> None) /\
  (ticks st <= ticks (handler w req st).2)%nat.
Proof. exact (proj2 (handler_only_adds w req st)). Qed.

(** X7. A search touches the caches of its own city only: the
    availability cache keeps every entry of another key, the metadata of
    every other city reads as before, and the only city that can become
    loaded is the one of the request. *)
Theorem handler_one_city (w : World) (req : Request) (st : State) :
  (forall other, other <> Query.city (query req) ->
                 carParkCache (handler w req st).2 !! other
                 = carParkCache st !! other) /\
  (forall city id,
      Query.city (query req) <> Some (City_value city) ->
      getMockCarParkData (handler w req st).2 city id
      = getMockCarParkData st city id) /\
  (forall c, c ∈ loadedCities (handler w req st).2 ->
             c ∈ loadedCities st \/ Query.city (query req) = Some c).
Proof.
  destruct (handler w req st) as [resp st'] eqn:Hrun. simpl.
  apply handler_steps in Hrun
    as [(_ & -> & _) | (_ & ra & st1 & Ha & Hrest)]; [auto |].
  pose proof (getAvailableCarParks_metadata _ _ _ _ _ Ha) as [Hl Hd].
  assert (Hcache1 : forall other, other <> Query.city (query req) ->
                      carParkCache st1 !! other = carParkCache st !! other)
    by (intros other; apply (getAvailableCarParks_other_cities _ _ _ _ _ _ Ha)).
  destruct Hrest as [(e & _ & -> & _) | [(data & e & _ & _ & -> & _) |
                     (data & params & rl & _ & Hp & Hload & _)]].
  - unfold getMockCarParkData. rewrite Hl, Hd. auto.
  - unfold getMockCarParkData. rewrite Hl, Hd. auto.
  - apply parse_city in Hp. cbn [parse_argument Input.city] in Hp.
    pose proof (loadMockCarParkData_frame _ _ _ _ _ Hload) as [Hcc _].
    split; [| split].
    + intros other Hne. rewrite Hcc. auto.
    + intros city id Hne. unfold getMockCarParkData.
      rewrite (loadMockCarParkData_other_keys _ _ _ _ _ _ Hload), Hd;
        [reflexivity |].
      intros id' Heq. apply carParkKey_injective in Heq as [-> _].
      now rewrite Hp in Hne.
    + intros c Hc.
      apply (loadMockCarParkData_loaded_cities _ _ _ _ _ _ Hload) in Hc
        as [Hc | ->]; [left; now rewrite <- Hl | right; assumption].
Qed.

(** A normal return leaves the city marked. *)
Lemma loadMockCarParkData_returns_loaded (w : World) (city : City)
    (st st' : State) :
  loadMockCarParkData w city st = (Return tt, st') ->
  City_value city ∈ loadedCities st'.
Proof.
  intros Hrun.
  destruct (decide (City_value city ∈ loadedCities st)) as [Hin | Hin].
  - rewrite (loadMockCarParkData_loaded w city st Hin) in Hrun.
    now injection Hrun as <-.
  - rewrite (loadMockCarParkData_unloaded w city st Hin) in Hrun.
    destruct (getAccessToken w st) as [[tok | e] st1]; [| discriminate].
    cbv zeta in Hrun.
    destruct (carpark_endpoint w (length (trace st1)) (City_value city))
      as [[carParks |] |]; try discriminate.
    apply for_of_storeCarPark in Hrun as (_ & _ & -> & _). simpl.
    apply elem_of_union_l. now apply elem_of_singleton.
Qed.

(** X10. Once the loader has returned normally for a city it returns at
    once for that city ever after, whatever the clock and the upstream:
    no request is sent and the state is left as it is, so the metadata
    of a city is never refreshed. *)
Theorem loadMockCarParkData_once (w w' : World) (city : City)
    (st st' : State) :
  loadMockCarParkData w city st = (Return tt, st') ->
  City_value city ∈ loadedCities st' /\
  loadMockCarParkData w' city st' = (Return tt, st').
Proof.
  intros Hrun. apply loadMockCarParkData_returns_loaded in Hrun.
  split; [assumption | now apply loadMockCarParkData_loaded].
Qed.

(** X8. A search whose city has a snapshot the clock has not outlived and
    whose metadata is loaded sends no request and changes nothing but
    the count of clock readings; it is answered from the caches. *)
Theorem handler_warm (w : World) (req : Request) (st : State)
    (cache : Cache.t) (params : Params.t) :
  method req = "GET" ->
  carParkCache st !! Query.city (query req) = Some cache ->
  Date_now w (ticks st) < Cache.expiredAt cache ->
  ParkingSearchSchema_parse (parse_argument w (query req)) = inr params ->
  City_value (Params.city params) ∈ loadedCities st ->
  handler w req st
  = (Status200 (search st params (Cache.values cache)), tick st).
Proof.
  intros Hm Hc Hlt Hp Hin.
  rewrite (handler_success w req st (tick st) (tick st)
             (Cache.values cache) params Hm); [reflexivity | | assumption |].
  - now apply getAvailableCarParks_hit.
  - now apply loadMockCarParkData_loaded.
Qed.

Lemma for_of_storeCarPark_last_wins (city : City)
    (before after : list Upstream.CarPark) (carPark : Upstream.CarPark) :
  Forall (fun c => Upstream.CarParkID c <> Upstream.CarParkID carPark) after ->
  forall (st st' : State),
    for_of (before ++ carPark :: after) (storeCarPark city) st
    = (Return tt, st') ->
    carParkData st' !! carParkKey city (Upstream.CarParkID carPark)
    = carParkEntry carPark /\
    is_Some (carParkEntry carPark).
Proof.
  intros Hafter. induction before as [| c before IH]; intros st st'; simpl.
  - unfold storeCarPark at 1. run.
    destruct (carParkEntry carPark) as [entry |]; [| discriminate].
    intros Hrest.
    apply (for_of_storeCarPark_other_ids city after _ Hafter) in Hrest.
    rewrite Hrest. simpl. rewrite lookup_insert_eq. eauto.
  - unfold storeCarPark at 1. run.
    destruct (carParkEntry c); [apply IH | discriminate].
Qed.

(** X11. What the loader stored is what the lookup returns: after a load
    that returned normally, the entry under (city, id) is the entry of
    the last record of the feed with that id. *)
Theorem loadMockCarParkData_last_wins (w : World) (city : City)
    (st st1 st' : State) (tok : string)
    (before after : list Upstream.CarPark) (carPark : Upstream.CarPark) :
  City_value city ∉ loadedCities st ->
  getAccessToken w st = (Return tok, st1) ->
  carpark_endpoint w (length (trace st1)) (City_value city)
  = Some (Some (before ++ carPark :: after)) ->
  Forall (fun c => Upstream.CarParkID c <> Upstream.CarParkID carPark) after ->
  loadMockCarParkData w city st = (Return tt, st') ->
  getMockCarParkData st' city (Upstream.CarParkID carPark)
  = carParkEntry carPark /\
  is_Some (carParkEntry carPark).
Proof.
  intros Hin Ht Hfeed Hafter Hrun.
  rewrite (loadMockCarParkData_unloaded w city st Hin), Ht, Hfeed in Hrun.
  cbv zeta in Hrun.
  now apply (for_of_storeCarPark_last_wins city before after carPark Hafter)
    in Hrun.
Qed.

(** X9. A successful search repeated while the clock is before the
    snapshot's expiry gets the same items from the caches: no request is
    sent, and only the count of clock readings changes. *)
Theorem handler_repeat (w : World) (req : Request) (st st' : State)
    (items : list Item.t) :
  handler w req st = (Status200 items, st') ->
  (forall cache,
      carParkCache st' !! Query.city (query req) = Some cache ->
      Date_now w (ticks st') < Cache.expiredAt cache) ->
  handler w req st' = (Status200 items, tick st').
Proof.
  intros Hrun Hfresh.
  assert (Hm : method req = "GET").
  { apply handler_steps in Hrun as [(H & _) | (H & _)];
      [discriminate | assumption]. }
  apply handler_200 in Hrun as (data & st1 & params & Ha & Hp & Hl & ->).
  apply getAvailableCarParks_returns in Ha as ((cache & Hc & <-) & _).
  pose proof (loadMockCarParkData_frame _ _ _ _ _ Hl) as [Hcc _].
  rewrite <- Hcc in Hc.
  apply loadMockCarParkData_returns_loaded in Hl.
  rewrite (handler_success w req st' (tick st') (tick st')
             (Cache.values cache) params Hm); [reflexivity | | assumption |].
  - apply getAvailableCarParks_hit; auto.
  - now apply loadMockCarParkData_loaded.
Qed.

(** ** What the schema accepts *)

Lemma nativeEnum_City (path s : string) (c : City) :
  z.nativeEnum City_all City_value path (Some s) = inr c <-> s = City_value c.
Proof.
  unfold z.nativeEnum. split.
  - destruct (find _ City_all) as [c' |] eqn:Hf; [| discriminate].
    apply find_some in Hf as [_ Hc]. apply String.eqb_eq in Hc.
    now intros [= <-].
  - intros ->. now destruct c.
Qed.

Lemma nativeEnum_ParkingType (path s : string) (p : ParkingType) :
  z.nativeEnum ParkingType_all ParkingType_value path (Some s) = inr p
  <-> s = ParkingType_value p.
Proof.
  unfold z.nativeEnum. split.
  - destruct (find _ ParkingType_all) as [p' |] eqn:Hf; [| discriminate].
    apply find_some in Hf as [_ Hc]. apply String.eqb_eq in Hc.
    now intros [= <-].
  - intros ->. now destruct p.
Qed.

Lemma nativeEnum_ParkingAvailability (path s : string)
    (a : ParkingAvailability) :
  z.nativeEnum ParkingAvailability_all ParkingAvailability_value path (Some s)
  = inr a <-> s = ParkingAvailability_value a.
Proof.
  unfold z.nativeEnum. split.
  - destruct (find _ ParkingAvailability_all) as [a' |] eqn:Hf;
      [| discriminate].
    apply find_some in Hf as [_ Hc]. apply String.eqb_eq in Hc.
    now intros [= <-].
  - intros ->. now destruct a.
Qed.

Lemma number_accepts (lo hi : R) (path : string) (v : option R) (x : R) :
  z.number lo hi path v = inr x <-> v = Some x /\ (lo <= x <= hi)%R.
Proof.
  unfold z.number. destruct v as [y |].
  - destruct (Rle_dec lo y), (Rle_dec y hi); split;
      try discriminate; try (intros [= <-]; auto);
      try (intros [[= <-] [? ?]]; auto; contradiction).
  - split; [discriminate | intros [[=] _]].
Qed.

Lemma LocationSchema_accepts (v : option R * option R) (l : Location) :
  LocationSchema v = inr l <->
  v = (Some (latitude l), Some (longitude l)) /\
  (-90 <= latitude l <= 90)%R /\ (-180 <= longitude l <= 180)%R.
Proof.
  unfold LocationSchema. destruct v as [la lo]. cbn [fst snd].
  destruct (z.number (-90) 90 "location.latitude" la) as [e1 | x] eqn:H1,
    (z.number (-180) 180 "location.longitude" lo) as [e2 | y] eqn:H2.
  1-3: split; [discriminate |]; intros ([= -> ->] & Hla & Hlo).
  - rewrite (proj2 (number_accepts _ _ _ _ _) (conj eq_refl Hla)) in H1.
    discriminate.
  - rewrite (proj2 (number_accepts _ _ _ _ _) (conj eq_refl Hla)) in H1.
    discriminate.
  - rewrite (proj2 (number_accepts _ _ _ _ _) (conj eq_refl Hlo)) in H2.
    discriminate.
  - apply number_accepts in H1 as [-> Hla], H2 as [-> Hlo]. split.
    + intros [= <-]. simpl. auto.
    + intros ([= -> ->] & _ & _). now destruct l.
Qed.

(** What an accepted input looks like. *)
Lemma parse_inr_inv (i : Input.t) (params : Params.t) :
  ParkingSearchSchema_parse i = inr params ->
  Input.city i = Some (City_value (Params.city params)) /\
  (Input.parkingType i = None /\ Params.parkingType params = Car \/
   Input.parkingType i
   = Some (ParkingType_value (Params.parkingType params))) /\
  (Input.availability i = None /\ Params.availability params = Available \/
   Input.availability i
   = Some (ParkingAvailability_value (Params.availability params))) /\
  (Input.location i = None /\ Params.location params = None \/
   exists l,
     Params.location params = Some l /\
     Input.location i = Some (Some (latitude l), Some (longitude l)) /\
     (-90 <= latitude l <= 90)%R /\ (-180 <= longitude l <= 180)%R).
Proof.
  destruct params as [c p a l]. cbn [Params.city Params.parkingType
    Params.availability Params.location].
  unfold ParkingSearchSchema_parse.
  destruct (z.nativeEnum City_all City_value "city" (Input.city i))
    as [? | c'] eqn:Hc; [discriminate |].
  destruct (z.default _ Car (Input.parkingType i)) as [? | p'] eqn:Hp;
    [discriminate |].
  destruct (z.default _ Available (Input.availability i)) as [? | a'] eqn:Ha;
    [discriminate |].
  destruct (z.optional LocationSchema (Input.location i)) as [? | l'] eqn:Hl;
    [discriminate |].
  intros [= -> -> -> ->]. repeat split.
  - destruct (Input.city i) as [s |]; [| discriminate].
    apply nativeEnum_City in Hc. now subst.
  - destruct (Input.parkingType i) as [s |]; simpl in Hp.
    + right. apply nativeEnum_ParkingType in Hp. now subst.
    + left. now injection Hp.
  - destruct (Input.availability i) as [s |]; simpl in Ha.
    + right. apply nativeEnum_ParkingAvailability in Ha. now subst.
    + left. now injection Ha.
  - destruct (Input.location i) as [v |]; simpl in Hl.
    + right. destruct (LocationSchema v) as [? | l0] eqn:Hv;
        [discriminate |].
      injection Hl as <-. apply LocationSchema_accepts in Hv as (-> & ? & ?).
      exists l0. auto.
    + left. now injection Hl as <-.
Qed.

(** Every such input is accepted. *)
Lemma parse_inr_intro (i : Input.t) (params : Params.t) :
  Input.city i = Some (City_value (Params.city params)) ->
  (Input.parkingType i = None /\ Params.parkingType params = Car \/
   Input.parkingType i
   = Some (ParkingType_value (Params.parkingType params))) ->
  (Input.availability i = None /\ Params.availability params = Available \/
   Input.availability i
   = Some (ParkingAvailability_value (Params.availability params))) ->
  (Input.location i = None /\ Params.location params = None \/
   exists l,
     Params.location params = Some l /\
     Input.location i = Some (Some (latitude l), Some (longitude l)) /\
     (-90 <= latitude l <= 90)%R /\ (-180 <= longitude l <= 180)%R) ->
  ParkingSearchSchema_parse i = inr params.
Proof.
  destruct params as [c p a l]. cbn [Params.city Params.parkingType
    Params.availability Params.location].
  unfold ParkingSearchSchema_parse.
  intros Hc Hp Ha Hl. rewrite Hc.
  rewrite (proj2 (nativeEnum_City "city" _ c) eq_refl).
  assert (Hp' : z.default (z.nativeEnum ParkingType_all ParkingType_value
                             "parkingType") Car (Input.parkingType i)
                = inr p).
  { destruct Hp as [[-> ->] | ->]; [reflexivity |].
    apply (nativeEnum_ParkingType "parkingType" _ p). reflexivity. }
  assert (Ha' : z.default (z.nativeEnum ParkingAvailability_all
                             ParkingAvailability_value "availability")
                          Available (Input.availability i)
                = inr a).
  { destruct Ha as [[-> ->] | ->]; [reflexivity |].
    apply (nativeEnum_ParkingAvailability "availability" _ a).
    reflexivity. }
  rewrite Hp', Ha'.
  destruct Hl as [[-> ->] | (l0 & -> & -> & Hla & Hlo)]; [reflexivity |].
  simpl.
  now rewrite (proj2 (LocationSchema_accepts _ l0)
                     (conj eq_refl (conj Hla Hlo))).
Qed.

(** X4. The schema accepts exactly the inputs whose city is the value of
    a member of [City], whose parking type and availability are absent
    (and default to Car and Available) or the value of a member, and
    whose location is absent or a pair of numbers, neither NaN, with the
    latitude in [-90, 90] and the longitude in [-180, 180], bounds
    included; the parsed query holds those members and that location. *)
Theorem ParkingSearchSchema_accepts (i : Input.t) (params : Params.t) :
  ParkingSearchSchema_parse i = inr params <->
  Input.city i = Some (City_value (Params.city params)) /\
  (Input.parkingType i = None /\ Params.parkingType params = Car \/
   Input.parkingType i
   = Some (ParkingType_value (Params.parkingType params))) /\
  (Input.availability i = None /\ Params.availability params = Available \/
   Input.availability i
   = Some (ParkingAvailability_value (Params.availability params))) /\
  (Input.location i = None /\ Params.location params = None \/
   exists l,
     Params.location params = Some l /\
     Input.location i = Some (Some (latitude l), Some (longitude l)) /\
     (-90 <= latitude l <= 90)%R /\ (-180 <= longitude l <= 180)%R).
Proof.
  split.
  - apply parse_inr_inv.
  - intros (Hc & Hp & Ha & Hl). now apply parse_inr_intro.
Qed.

(** ** Tiers, reported counts and ties *)

Lemma keeps_monotone (p1 p2 : Params.t) (lot : Lot) :
  Params.parkingType p1 = Params.parkingType p2 ->
  availableSpaceTypes (Params.availability p1)
  <= availableSpaceTypes (Params.availability p2) ->
  keeps p2 lot = true -> keeps p1 lot = true.
Proof.
  intros Ht Hle Hk. apply keeps_iff in Hk as (avail & Hin & Hs & Ha).
  apply keeps_iff. exists avail. rewrite Ht. repeat split; auto. lia.
Qed.

Lemma toItem_availability (st : State) (p1 p2 : Params.t) (lot : Lot) :
  Params.city p1 = Params.city p2 ->
  Params.parkingType p1 = Params.parkingType p2 ->
  Params.location p1 = Params.location p2 ->
  toItem st p1 lot = toItem st p2 lot.
Proof. intros Hc Ht Hl. unfold toItem. now rewrite Hc, Ht, Hl. Qed.

(** X14. The tiers are nested, Many within Few within Available within
    Any: with the city, the parking type and the coordinate unchanged,
    every item found under a tier is found under each tier of a
    threshold that is not higher, and the thresholds rise from Any to
    Available to Few to Many. *)
Theorem search_tiers_nested (st : State) (p1 p2 : Params.t)
    (data : list Lot) (item : Item.t) :
  Params.city p1 = Params.city p2 ->
  Params.parkingType p1 = Params.parkingType p2 ->
  Params.location p1 = Params.location p2 ->
  availableSpaceTypes (Params.availability p1)
  <= availableSpaceTypes (Params.availability p2) ->
  (In item (search st p2 data) -> In item (search st p1 data)) /\
  availableSpaceTypes Any <= availableSpaceTypes Available /\
  availableSpaceTypes Available <= availableSpaceTypes Few /\
  availableSpaceTypes Few <= availableSpaceTypes Many.
Proof.
  intros Hc Ht Hl Hle. split; [| simpl; lia]. intros Hin.
  apply (Permutation_in _ (search_permutation _ _ _)) in Hin.
  apply in_map_iff in Hin as (lot & <- & Hlot).
  apply filter_In in Hlot as [Hdata Hk].
  apply (Permutation_in _ (Permutation_sym (search_permutation _ _ _))).
  rewrite <- (toItem_availability st p1 p2 lot Hc Ht Hl).
  apply in_map, filter_In. split; [assumption |].
  now apply (keeps_monotone p1 p2).
Qed.

Lemma or_num_0 (n : Z) : or_num (Some n) 0 = n.
Proof. unfold or_num. destruct (Z.eqb_spec n 0); congruence. Qed.

(** X13. The item of a lot the filter keeps reports the total and the
    available spaces of the first entry of the requested space type,
    which need not be the entry that passed the filter.  The reported
    count reaches the tier's threshold when no later entry has that
    type; otherwise it need not: for every query the lot
    [Scenario.two_entries], with two entries of the requested type, is
    kept on the strength of its second entry and reported with the
    count of its first, one space short of the threshold. *)
Theorem toItem_reports_first_entry (st : State) (params : Params.t) :
  (forall lot,
      keeps params lot = true ->
      exists before avail after,
        Availabilities lot = before ++ avail :: after /\
        Forall (fun other =>
                  SpaceType other
                  <> spaceTypeMapping (Params.parkingType params))
               before /\
        SpaceType avail = spaceTypeMapping (Params.parkingType params) /\
        Item.totalSpaces (toItem st params lot) = NumberOfSpaces avail /\
        Item.availableSpaces (toItem st params lot) = AvailableSpaces avail /\
        (Forall (fun other =>
                   SpaceType other
                   <> spaceTypeMapping (Params.parkingType params)) after ->
         availableSpaceTypes (Params.availability params)
         <= Item.availableSpaces (toItem st params lot))) /\
  keeps params (Scenario.two_entries params) = true /\
  Item.availableSpaces (toItem st params (Scenario.two_entries params))
  = availableSpaceTypes (Params.availability params) - 1 /\
  Item.availableSpaces (toItem st params (Scenario.two_entries params))
  < availableSpaceTypes (Params.availability params).
Proof.
  split.
  - intros lot Hk. apply keeps_iff in Hk as (passed & Hin & Hs & Ha).
    unfold toItem. cbn [Item.totalSpaces Item.availableSpaces].
    set (code := spaceTypeMapping (Params.parkingType params)) in *.
    induction (Availabilities lot) as [| first entries IH]; [contradiction |].
    cbn [find]. destruct (Z.eqb_spec (SpaceType first) code) as [Heq | Hne].
    + exists [], first, entries. cbn [option_map]. rewrite !or_num_0.
      repeat split; auto. intros Hafter.
      destruct Hin as [<- | Hin]; [assumption |].
      rewrite List.Forall_forall in Hafter. now apply Hafter in Hin.
    + destruct Hin as [-> | Hin]; [contradiction |].
      destruct (IH Hin)
        as (before & avail & after & -> & Hb & Hc & Ht & Hv & Hu).
      exists (first :: before), avail, after.
      repeat split; auto.
  - assert (Hreport :
             Item.availableSpaces
               (toItem st params (Scenario.two_entries params))
             = availableSpaceTypes (Params.availability params) - 1).
    { unfold toItem, Scenario.two_entries, Example.lot, Example.spaces.
      cbn [Item.availableSpaces Availabilities find SpaceType].
      rewrite Z.eqb_refl. cbn [option_map AvailableSpaces].
      apply or_num_0. }
    split; [| split; [exact Hreport | rewrite Hreport; lia]].
    apply keeps_iff.
    exists (Example.spaces (spaceTypeMapping (Params.parkingType params)) 10
                           (availableSpaceTypes (Params.availability params))).
    unfold Scenario.two_entries, Example.lot, Example.spaces. simpl.
    split; [auto |]. split; [reflexivity | lia].
Qed.

Section Stable.

Context {A : Type}.
Variable comparefn : A -> A -> Number.
Variable p : A -> bool.
Hypothesis together :
  forall x y, p x = true -> p y = true -> positive (comparefn x y) = false.

Lemma insert_filter (x : A) (l : list A) :
  List.filter p (Array.insert comparefn x l) = List.filter p (x :: l).
Proof.
  induction l as [| y l IH]; [reflexivity |].
  cbn [Array.insert]. destruct (positive (comparefn x y)) eqn:Hc;
    [| reflexivity].
  cbn [List.filter] in *. rewrite IH.
  destruct (p x) eqn:Hx, (p y) eqn:Hy; try reflexivity.
  rewrite (together x y Hx Hy) in Hc. discriminate.
Qed.

Lemma sort_filter (l : list A) :
  List.filter p (Array.sort comparefn l) = List.filter p l.
Proof.
  induction l as [| x l IH]; [reflexivity |].
  cbn [Array.sort fold_right]. fold (Array.sort comparefn l).
  rewrite insert_filter. cbn [List.filter]. now rewrite IH.
Qed.

End Stable.

(** X15. Without a coordinate ties keep the order of the snapshot: the
    items of a search with one and the same count of available spaces
    come in the order of their lots. *)
Theorem search_stable (st : State) (params : Params.t) (data : list Lot) :
  Params.location params = None ->
  forall n,
    List.filter (fun item => Item.availableSpaces item =? n)
                (search st params data)
    = List.filter (fun item => Item.availableSpaces item =? n)
                  (map (toItem st params) (List.filter (keeps params) data)).
Proof.
  intros Hloc n. apply sort_filter. intros a b Ha Hb.
  unfold compareLots. rewrite Hloc. simpl.
  apply Z.eqb_eq in Ha, Hb. apply Z.ltb_ge. lia.
Qed.

(** X19. The items of a successful response to a request that lacks a
    coordinate parameter, or has an empty one, carry no distance and are
    in non-increasing order of available spaces. *)
Theorem handler_sorted_by_spaces (w : World) (req : Request)
    (st st' : State) (items : list Item.t) :
  handler w req st = (Status200 items, st') ->
  truthy (Query.latitude (query req)) && truthy (Query.longitude (query req))
  = false ->
  Forall (fun item => Item.distance item = None) items /\
  StronglySorted no_fewer_spaces items.
Proof.
  intros H Hnone.
  apply handler_snapshot in H as (params & cache & Hp & Hc & ->).
  assert (Hloc : Params.location params = None).
  { destruct (Params.location params) eqn:Hl; [| reflexivity].
    assert (Hsome : Params.location params <> None) by (rewrite Hl; discriminate).
    apply (parse_location w (query req) params Hp) in Hsome. congruence. }
  split; [| now apply search_sorted_by_spaces].
  apply List.Forall_forall. intros item Hin.
  apply (Permutation_in _ (search_permutation _ _ _)) in Hin.
  apply in_map_iff in Hin as (lot & <- & _).
  unfold toItem. cbn [Item.distance]. now rewrite Hloc.
Qed.

(** ** The join with the metadata *)




(** ** The search page *)

(** X16. The city the page selects for a position is one of the table,
    and no city of the table is nearer to the position in the plane of
    latitude and longitude. *)
Theorem nearestCity_is_nearest (lat lon : R) :
  exists city loc,
    Page.nearestCity lat lon = Some city /\
    In (city, loc) Page.cityCoordinates /\
    forall city' loc',
      In (city', loc') Page.cityCoordinates ->
      (Page.dist lat lon loc <= Page.dist lat lon loc')%R.
Proof.
  unfold Page.nearestCity.
  pose proof (sort_permutation (Page.byDistance lat lon) Page.cityCoordinates)
    as Hperm.
  assert (Hsorted : StronglySorted
                      (fun x y => (Page.dist lat lon (snd x)
                                   <= Page.dist lat lon (snd y))%R)
                      (Array.sort (Page.byDistance lat lon)
                                  Page.cityCoordinates)).
  { apply sort_sorted with (P := fun _ => True).
    - intros x y z0. apply Rle_trans.
    - intros x y _ _. unfold Page.byDistance, positive.
      destruct (Rlt_dec 0 _); [discriminate | intros _; lra].
    - intros x y _ _. unfold Page.byDistance, positive.
      destruct (Rlt_dec 0 _); [intros _; lra | discriminate].
    - apply List.Forall_forall. auto. }
  destruct (Array.sort (Page.byDistance lat lon) Page.cityCoordinates)
    as [| [city loc] rest].
  - apply Permutation_nil in Hperm. discriminate.
  - exists city, loc. split; [reflexivity |]. split.
    + apply (Permutation_in _ Hperm). now left.
    + intros city' loc' Hin.
      apply (Permutation_in _ (Permutation_sym Hperm)) in Hin.
      destruct Hin as [[= <- <-] | Hin]; [lra |].
      apply StronglySorted_inv in Hsorted as [_ Hall].
      rewrite List.Forall_forall in Hall. apply (Hall _ Hin).
Qed.

Lemma truthy_Some_true (s : string) : s <> EmptyString -> truthy (Some s) = true.
Proof. apply truthy_Some. Qed.

(** X17. The request the page sends for a form it has validated is a
    GET with both coordinate parameters or neither, and, when the
    runtime's [parseFloat] reads back what its [toString] printed for
    the two coordinates, the handler's schema parses it to exactly what
    the page's validation produced. *)
Theorem handleSearch_round_trip (w : World) (toString : R -> string)
    (searchForm : Input.t) (req : Request) :
  Page.handleSearch toString searchForm = inr req ->
  (forall la lo,
      Input.location searchForm = Some (Some la, Some lo) ->
      toString la <> EmptyString /\ toString lo <> EmptyString /\
      parseFloat w (toString la) = Some la /\
      parseFloat w (toString lo) = Some lo) ->
  method req = "GET" /\
  (Query.latitude (query req) = None <-> Query.longitude (query req) = None) /\
  ParkingSearchSchema_parse (parse_argument w (query req))
  = ParkingSearchSchema_parse searchForm.
Proof.
  unfold Page.handleSearch.
  destruct (ParkingSearchSchema_parse searchForm) as [e | v] eqn:Hv;
    [discriminate |].
  intros [= <-] Hnum. cbn [method query].
  split; [reflexivity |].
  apply parse_inr_inv in Hv as (_ & _ & _ & Hl).
  destruct Hl as [[Hnone Hv] | (l & Hv & Hloc & Hla & Hlo)]; rewrite Hv.
  - simpl. split; [tauto |].
    apply parse_inr_intro; rewrite ?Hv; simpl; auto.
  - destruct (Hnum _ _ Hloc) as (Hsa & Hso & Hpa & Hpo).
    cbn [option_map]. rewrite !truthy_Some_true by assumption.
    cbn [negb orb Query.latitude Query.longitude].
    split; [split; discriminate |].
    apply parse_inr_intro; unfold parse_argument;
      cbn [Input.city Input.parkingType Input.availability Input.location
           Query.city Query.parkingType Query.availability Query.latitude
           Query.longitude]; auto.
    rewrite !truthy_Some_true by assumption. cbn [andb default].
    unfold Datatypes.id. rewrite Hpa, Hpo, Hv.
    right. exists l. auto.
Qed.

(** X18. The heading of a result card is a name only in the locale en,
    where it is the English name, and under the key zh_tw, which is no
    locale of the site: in the locale zh-TW, and without a locale, the
    page reads the property zh-TW, which the items of the handler do
    not have, and shows no name. *)
Theorem heading_keys (locale : option string) (lot : Item.t) (s : string) :
  (Render.heading locale lot = Some s <->
   s <> EmptyString /\
   (locale = Some "en" /\ s = en (Item.carParkName lot) \/
    locale = Some "zh_tw" /\ s = zh_tw (Item.carParkName lot))) /\
  Render.heading None lot = None /\
  Render.heading (Some "zh-TW") lot = None.
Proof.
  split; [| split; reflexivity].
  unfold Render.heading, Render.carParkName_get.
  change (String.eqb "zh-TW" "zh_tw") with false.
  change (String.eqb "zh-TW" "en") with false. cbn [truthy].
  destruct locale as [l |]; cbn [or_str].
  - destruct (String.eqb_spec l EmptyString) as [-> | Hl];
      [split; [discriminate | intros (_ & [[[=] _] | [[=] _]])] |].
    destruct (String.eqb_spec l "zh_tw") as [-> | Hz].
    + cbn [truthy].
      destruct (String.eqb_spec (zh_tw (Item.carParkName lot)) EmptyString)
        as [He | He]; cbn [negb]; split.
      * discriminate.
      * intros (Hs & [[[=] _] | [_ ->]]). contradiction.
      * intros [= <-]. auto.
      * intros (_ & [[[=] _] | [_ ->]]). reflexivity.
    + destruct (String.eqb_spec l "en") as [-> | Hn].
      * cbn [truthy].
        destruct (String.eqb_spec (en (Item.carParkName lot)) EmptyString)
          as [He | He]; cbn [negb]; split.
        -- discriminate.
        -- intros (Hs & [[_ ->] | [[=] _]]). contradiction.
        -- intros [= <-]. auto.
        -- intros (_ & [[_ ->] | [[=] _]]). reflexivity.
      * cbn [truthy]. split; [discriminate |].
        intros (_ & [[[= ->] _] | [[= ->] _]]); contradiction.
  - split; [discriminate | intros (_ & [[[=] _] | [[=] _]])].
Qed.

(** ** The further properties at the example upstream *)

Lemma warm_loaded : "Taipei" ∈ loadedCities Example.warm.
Proof.
  assert (H : loadedCities Example.warm = {[ "Taipei" ]} ∪ ∅)
    by (vm_compute; reflexivity).
  rewrite H. apply elem_of_union_l. now apply elem_of_singleton.
Defined.

Lemma loadMockCarParkData_once_witness :
  loadMockCarParkData Example.world Taipei Scenario.fetched
  = (Return tt, Example.warm) /\
  "Taipei" ∈ loadedCities Example.warm /\
  loadMockCarParkData Example.world_without_CarParks Taipei Example.warm
  = (Return tt, Example.warm).
Proof.
  split; [exact fetched_loads |].
  exact (loadMockCarParkData_once Example.world Example.world_without_CarParks
           Taipei Scenario.fetched Example.warm fetched_loads).
Defined.

Lemma warm_clock : Date_now Example.world (ticks Example.warm) < 61000.
Proof. vm_compute. reflexivity. Defined.

Lemma handler_warm_witness :
  handler Example.world Example.search_many Example.warm
  = (Status200 (search Example.warm Example.many_params Example.lots),
     tick Example.warm).
Proof.
  exact (handler_warm Example.world Example.search_many Example.warm
           {| Cache.expiredAt := 61000; Cache.values := Example.lots |}
           Example.many_params eq_refl warm_snapshot warm_clock
           search_many_parse warm_loaded).
Defined.

Lemma handler_repeat_witness :
  handler Example.world Example.search_many initial
  = (Status200 (search Example.warm Example.many_params Example.lots),
     Example.warm) /\
  handler Example.world Example.search_many Example.warm
  = (Status200 (search Example.warm Example.many_params Example.lots),
     tick Example.warm).
Proof.
  split; [exact search_many_run |].
  apply (handler_repeat Example.world Example.search_many initial);
    [exact search_many_run |].
  intros cache Hc.
  change (carParkCache Example.warm !! Some "Taipei" = Some cache) in Hc.
  rewrite warm_snapshot in Hc. injection Hc as <-. exact warm_clock.
Defined.

Lemma loadMockCarParkData_last_wins_witness :
  getMockCarParkData Example.warm Taipei "A" = carParkEntry Example.carParkA /\
  is_Some (carParkEntry Example.carParkA).
Proof.
  apply (loadMockCarParkData_last_wins Example.world Taipei Scenario.fetched
           (getAccessToken Example.world Scenario.fetched).2 Example.warm
           "token" [] [Example.carParkB] Example.carParkA).
  - exact fetched_unloaded.
  - vm_compute. reflexivity.
  - reflexivity.
  - repeat constructor. discriminate.
  - exact fetched_loads.
Defined.

Lemma search_tiers_nested_witness :
  In (toItem Example.warm Example.many_params Example.lotA)
     (search Example.warm Example.many_params Example.lots) /\
  In (toItem Example.warm Example.many_params Example.lotA)
     (search Example.warm Scenario.few_params Example.lots).
Proof.
  assert (Hin : In (toItem Example.warm Example.many_params Example.lotA)
                   (search Example.warm Example.many_params Example.lots)).
  { apply (Permutation_in _ (Permutation_sym (search_permutation _ _ _))).
    simpl. auto. }
  split; [exact Hin |].
  apply (search_tiers_nested Example.warm Scenario.few_params
           Example.many_params Example.lots _ eq_refl eq_refl eq_refl);
    [simpl; lia | exact Hin].
Defined.

(** Lot C under the tier Many: its one car entry is reported, 9 free of
    20; and the lot of two car entries, 4 free and 5 free, is kept and
    reported with 4, below the threshold 5. *)
Lemma toItem_reports_first_entry_witness :
  (keeps Example.many_params Example.lotC = true /\
   exists before avail after,
     Availabilities Example.lotC = before ++ avail :: after /\
     Forall (fun other => SpaceType other <> 1) before /\
     SpaceType avail = 1 /\
     Item.totalSpaces (toItem Example.warm Example.many_params Example.lotC)
     = NumberOfSpaces avail /\
     Item.availableSpaces (toItem Example.warm Example.many_params Example.lotC)
     = AvailableSpaces avail /\
     (Forall (fun other => SpaceType other <> 1) after ->
      5 <= Item.availableSpaces
             (toItem Example.warm Example.many_params Example.lotC))) /\
  Scenario.two_entries Example.many_params
  = Example.lot "P" [Example.spaces 1 10 4; Example.spaces 1 10 5] /\
  keeps Example.many_params (Scenario.two_entries Example.many_params) = true /\
  Item.availableSpaces
    (toItem Example.warm Example.many_params
            (Scenario.two_entries Example.many_params)) = 4.
Proof.
  destruct (toItem_reports_first_entry Example.warm Example.many_params)
    as (Hfirst & Hkept & Hreport & _).
  split; [split; [reflexivity | exact (Hfirst Example.lotC eq_refl)] |].
  split; [reflexivity |]. split; [exact Hkept | exact Hreport].
Defined.

Lemma search_stable_witness :
  Params.location Example.many_params = None /\
  forall n,
    List.filter (fun item => Item.availableSpaces item =? n)
                (search Example.warm Example.many_params Example.lots)
    = List.filter (fun item => Item.availableSpaces item =? n)
                  (map (toItem Example.warm Example.many_params)
                       (List.filter (keeps Example.many_params) Example.lots)).
Proof.
  split; [reflexivity |].
  exact (search_stable Example.warm Example.many_params Example.lots eq_refl).
Defined.

(** The search for cars of the tier Many without a coordinate. *)
Lemma handler_sorted_by_spaces_witness :
  handler Example.world Example.search_many initial
  = (Status200 (search Example.warm Example.many_params Example.lots),
     Example.warm) /\
  Forall (fun item => Item.distance item = None)
         (search Example.warm Example.many_params Example.lots) /\
  StronglySorted no_fewer_spaces
    (search Example.warm Example.many_params Example.lots).
Proof.
  split; [exact search_many_run |].
  exact (handler_sorted_by_spaces _ _ _ _ _ search_many_run eq_refl).
Defined.

Lemma calculateDistance_meridian_witness :
  ((-90 <= 25 <= 90) /\ (-90 <= 24 <= 90))%R /\
  calculateDistance 25 121 24 121 = (6371 * (Rabs (24 - 25) * PI / 180))%R.
Proof.
  assert (H1 : (-90 <= 25 <= 90)%R) by lra.
  assert (H2 : (-90 <= 24 <= 90)%R) by lra.
  split; [split; assumption |].
  exact (calculateDistance_meridian 25 24 121 H1 H2).
Defined.

Lemma form_near_parse :
  ParkingSearchSchema_parse Scenario.form_near = inr Example.near_params.
Proof.
  apply parse_inr_intro; [reflexivity | now right | now right |].
  right. exists {| latitude := 25; longitude := 121 |}.
  simpl. repeat split; lra.
Defined.

Lemma toString_25 : Scenario.toString 25 = "25".
Proof.
  unfold Scenario.toString. destruct (Req_dec_T 25 25); [reflexivity | lra].
Defined.

Lemma toString_121 : Scenario.toString 121 = "121".
Proof.
  unfold Scenario.toString. destruct (Req_dec_T 121 25); [lra | reflexivity].
Defined.

Lemma form_near_request :
  Page.handleSearch Scenario.toString Scenario.form_near
  = inr Scenario.request_near.
Proof.
  unfold Page.handleSearch. rewrite form_near_parse.
  cbn [Example.near_params Params.location Params.city Params.parkingType
       Params.availability option_map latitude longitude].
  rewrite toString_25, toString_121. reflexivity.
Defined.

Lemma handleSearch_round_trip_witness :
  Page.handleSearch Scenario.toString Scenario.form_near
  = inr Scenario.request_near /\
  method Scenario.request_near = "GET" /\
  (Query.latitude (query Scenario.request_near) = None <->
   Query.longitude (query Scenario.request_near) = None) /\
  ParkingSearchSchema_parse
    (parse_argument Example.world (query Scenario.request_near))
  = ParkingSearchSchema_parse Scenario.form_near.
Proof.
  split; [exact form_near_request |].
  apply (handleSearch_round_trip Example.world Scenario.toString
           Scenario.form_near Scenario.request_near form_near_request).
  intros la lo [= <- <-]. rewrite toString_25, toString_121.
  repeat split; discriminate.
Defined.

